(** * Rough Heston option pricing (hestonClass.ipynb)

    A shallow embedding of the notebook's code: the Black-Scholes helpers
    [BlackScholesCallPut] and [impliedVol], and the class [roughHeston]
    (weights [a], [b], the fractional Riccati solver [fill_h], the
    characteristic function and the two Fourier pricers).

    Modelling conventions.
    - A Python [float] / numpy [float64] is an element of [R]; a [complex] /
      [complex128] is a pair of reals ([C]).  Rounding, overflow and the
      special values inf / nan are not represented: every operation is the
      exact one.  Where numpy would produce inf or nan the embedding says
      so in a comment next to the operation.  Where a statement depends on
      which exception comes first (the errors of the constructor), it
      carries the hypothesis that keeps the powers inside the float range
      ([float_max]), beyond which Python raises OverflowError.
    - The arguments of the functions and the entries of [heston_params]
      are Python floats and ints, as the notebook passes them; the values
      of [scipy.special.gamma] are numpy floats.  Each arithmetic operation
      is the one of the types the code has at that point (Python's [/] and
      [**] raise, numpy's do not).
    - A Python [int] is an element of [Z].
    - An exception is an [Err] of the [result] monad; a method that mutates
      [self] takes the object and returns the new one.
    - Library routines ([scipy.special.gamma], [scipy.stats.norm.cdf] and
      the node selection of [scipy.integrate.quad]) are parameters of the
      development; [numpy] array primitives and [scipy.optimize.bisect]
      are written out. *)

From Stdlib Require Import Reals Ranalysis5 Lra Lia ZArith.
From stdpp Require Import list gmap strings.

Local Open Scope R_scope.

(* ===================================================================== *)
(** ** Python exceptions and the result monad *)
(* ===================================================================== *)

Inductive pyerror : Type :=
  | ZeroDivisionError
  | ValueError
  | TypeError
  | IndexError
  | KeyError
  | AttributeError
  | RuntimeError.

Inductive result (A : Type) : Type :=
  | Ok (x : A)
  | Err (e : pyerror).
Arguments Ok {A} x.
Arguments Err {A} e.

Definition bind {A B : Type} (m : result A) (k : A -> result B) : result B :=
  match m with
  | Ok x => k x
  | Err e => Err e
  end.

Notation "'let!' x ':=' m 'in' k" := (bind m (fun x => k))
  (at level 10, x name, m at level 100, k at level 200, only parsing).

(** [for x in xs: s = body(x, s)] *)
Fixpoint for_in {A S : Type} (xs : list A) (body : A -> S -> result S) (s : S)
  : result S :=
  match xs with
  | [] => Ok s
  | x :: xs' => let! s' := body x s in for_in xs' body s'
  end.

(** A generator expression consumed in order: [(f(x) for x in xs)]. *)
Fixpoint map_in {A B : Type} (xs : list A) (f : A -> result B) : result (list B) :=
  match xs with
  | [] => Ok []
  | x :: xs' => let! y := f x in let! ys := map_in xs' f in Ok (y :: ys)
  end.

(** [range(lo, hi)] *)
Definition py_range (lo hi : Z) : list Z :=
  map (fun i : nat => (lo + Z.of_nat i)%Z) (seq 0 (Z.to_nat (hi - lo))).

(** [d[key]] on a dict with string keys. *)
Definition dict_get (d : gmap string R) (key : string) : result R :=
  match d !! key with
  | Some v => Ok v
  | None => Err KeyError
  end.

(* ===================================================================== *)
(** ** Complex numbers *)
(* ===================================================================== *)

Record C : Type := mkC { Re : R; Im : R }.

Declare Scope C_scope.
Delimit Scope C_scope with C.
Bind Scope C_scope with C.

Definition RtoC (x : R) : C := mkC x 0.
(** The literal [1j]. *)
Definition Ci : C := mkC 0 1.
Definition Cadd (z w : C) : C := mkC (Re z + Re w) (Im z + Im w).
Definition Copp (z : C) : C := mkC (- Re z) (- Im z).
Definition Csub (z w : C) : C := mkC (Re z - Re w) (Im z - Im w).
Definition Cmul (z w : C) : C :=
  mkC (Re z * Re w - Im z * Im w) (Re z * Im w + Im z * Re w).
Definition Cnorm2 (z : C) : R := Re z * Re z + Im z * Im z.
Definition Cdiv (z w : C) : C :=
  mkC ((Re z * Re w + Im z * Im w) / Cnorm2 w)
      ((Im z * Re w - Re z * Im w) / Cnorm2 w).

Infix "+" := Cadd : C_scope.
Infix "-" := Csub : C_scope.
Infix "*" := Cmul : C_scope.
Infix "/" := Cdiv : C_scope.
Notation "- z" := (Copp z) : C_scope.

(** [np.exp] on a complex argument. *)
Definition Cexp (z : C) : C :=
  mkC (exp (Re z) * cos (Im z)) (exp (Re z) * sin (Im z)).

(** [atan2(y, x)], the argument of [x + iy] in (-pi, pi]. *)
Definition atan2 (y x : R) : R :=
  if Rlt_dec 0 x then atan (y / x)
  else if Rlt_dec x 0 then
    (if Rle_dec 0 y then atan (y / x) + PI else atan (y / x) - PI)
  else if Rlt_dec 0 y then PI / 2
  else if Rlt_dec y 0 then - (PI / 2)
  else 0.

(** [np.log] on a complex argument (principal branch; at 0 numpy gives -inf). *)
Definition Clog (z : C) : C := mkC (ln (sqrt (Cnorm2 z))) (atan2 (Im z) (Re z)).

(** [np.sqrt] on a complex argument (principal branch). *)
Definition Csqrt (z : C) : C :=
  let m := sqrt (Cnorm2 z) in
  mkC (sqrt ((m + Re z) / 2))
      (if Rlt_dec (Im z) 0 then - sqrt ((m - Re z) / 2) else sqrt ((m - Re z) / 2)).

(* ===================================================================== *)
(** ** Python numbers: floats that may turn complex *)
(* ===================================================================== *)

(** The value of a Python arithmetic expression over floats: [**] with a
    negative base and a fractional exponent yields a [complex], and the
    other operators promote. *)
Inductive pyval : Type :=
  | PyFloat (r : R)
  | PyComplex (z : C).

Definition to_complex (v : pyval) : C :=
  match v with
  | PyFloat r => RtoC r
  | PyComplex z => z
  end.

Definition py_binop (fr : R -> R -> R) (fc : C -> C -> C) (v w : pyval) : pyval :=
  match v, w with
  | PyFloat x, PyFloat y => PyFloat (fr x y)
  | _, _ => PyComplex (fc (to_complex v) (to_complex w))
  end.

Definition py_add : pyval -> pyval -> pyval := py_binop Rplus Cadd.
Definition py_sub : pyval -> pyval -> pyval := py_binop Rminus Csub.
Definition py_mul : pyval -> pyval -> pyval := py_binop Rmult Cmul.
(** [v / w] for a numpy float [w]: a Python float [v] divides as numpy
    does, with no exception (inf / nan at zero); a Python complex [v]
    divides as Python's complex does and raises at zero. *)
Definition np_div (v w : pyval) : result pyval :=
  match v, w with
  | PyFloat x, PyFloat y => Ok (PyFloat (x / y))
  | _, _ =>
      if Req_dec_T (Cnorm2 (to_complex w)) 0 then Err ZeroDivisionError
      else Ok (PyComplex (to_complex v / to_complex w)%C)
  end.

Definition is_integer (y : R) : bool :=
  if Req_dec_T y (IZR (Int_part y)) then true else false.

(** The real power [x ** y] wherever it is a finite real: positive base;
    base 0 with exponent >= 0 (0 ** 0 = 1); negative base with an integer
    exponent.  (Elsewhere C's [pow] gives inf or nan; the value below is
    then not meaningful.) *)
Definition float_pow (x y : R) : R :=
  if Rlt_dec 0 x then Rpower x y
  else if Req_dec_T x 0 then (if Req_dec_T y 0 then 1 else 0)
  else if Z.even (Int_part y) then Rpower (- x) y else - Rpower (- x) y.

(** The largest finite double, [sys.float_info.max]. *)
Definition float_max : R := (2 - / 2 ^ 52) * 2 ^ 1023.

(** Python's [x ** y] on floats ([float_pow] in floatobject.c): 0 to a
    negative power raises, a negative base with a fractional exponent goes
    through complex power.  Python also raises [OverflowError] when the
    result leaves the float range; the reals have no such range, so the
    value below stands for the run only where its modulus is at most
    [float_max]. *)
Definition py_pow (x y : R) : result pyval :=
  if Req_dec_T x 0 then
    (if Rlt_dec y 0 then Err ZeroDivisionError else Ok (PyFloat (float_pow x y)))
  else if Rlt_dec x 0 then
    (if is_integer y then Ok (PyFloat (float_pow x y))
     else Ok (PyComplex (mkC (Rpower (- x) y * cos (PI * y))
                             (Rpower (- x) y * sin (PI * y)))))
  else Ok (PyFloat (float_pow x y)).

(** Python's [x / n] for a float [x] and an int [n]. *)
Definition py_truediv (x : R) (n : Z) : result R :=
  if (n =? 0)%Z then Err ZeroDivisionError else Ok (x / IZR n).

(* ===================================================================== *)
(** ** numpy arrays *)
(* ===================================================================== *)

(** A 2-d float64 array, as its list of rows. *)
Abbreviation matrix := (list (list R)).

(** numpy index normalisation: a negative index counts from the end. *)
Definition np_index (len : nat) (i : Z) : result nat :=
  let i' := if (i <? 0)%Z then (i + Z.of_nat len)%Z else i in
  if ((0 <=? i') && (i' <? Z.of_nat len))%Z then Ok (Z.to_nat i')
  else Err IndexError.

(** [arr[i]] *)
Definition np_get {A : Type} (arr : list A) (i : Z) : result A :=
  let! n := np_index (length arr) i in
  match arr !! n with
  | Some x => Ok x
  | None => Err IndexError
  end.

(** [arr[i] = x] *)
Definition np_set {A : Type} (arr : list A) (i : Z) (x : A) : result (list A) :=
  let! n := np_index (length arr) i in
  Ok (<[n := x]> arr).

(** [m[j, k]] *)
Definition mat_get (m : matrix) (j k : Z) : result R :=
  let! row := np_get m j in
  np_get row k.

(** Conversion of a Python number stored into a float64 array. *)
Definition np_float (v : pyval) : result R :=
  match v with
  | PyFloat r => Ok r
  | PyComplex _ => Err TypeError
  end.

(** [m[j, k] = v] on a float64 array: the index is checked, then the value
    converted. *)
Definition mat_store (m : matrix) (j k : Z) (v : pyval) : result matrix :=
  let! row := np_get m j in
  let! c := np_index (length row) k in
  let! x := np_float v in
  let! r := np_index (length m) j in
  Ok (<[r := <[c := x]> row]> m).

(** [np.zeros(shape=(r, c))] *)
Definition np_zeros2 (r c : Z) : result matrix :=
  if ((r <? 0) || (c <? 0))%Z then Err ValueError
  else Ok (replicate (Z.to_nat r) (replicate (Z.to_nat c) 0)).

(** [np.zeros(len, dtype=complex)] *)
Definition np_zeros_complex (len : Z) : result (list C) :=
  if (len <? 0)%Z then Err ValueError
  else Ok (replicate (Z.to_nat len) (RtoC 0)).

(** [np.linspace(start, stop, num)] (endpoint included): [i * step + start]
    with the last sample overwritten by [stop]. *)
Definition linspace (start stop : R) (num : Z) : result (list R) :=
  if (num <? 0)%Z then Err ValueError
  else
    let div := (num - 1)%Z in
    let delta := stop - start in
    if (0 <? div)%Z then
      let step := delta / IZR div in
      Ok (<[Z.to_nat div := stop]>
            (map (fun i => IZR i * step + start) (py_range 0 num)))
    else Ok (map (fun i => IZR i * delta + start) (py_range 0 num)).

(** [np.diff(x)] *)
Fixpoint np_diff (x : list R) : list R :=
  match x with
  | x0 :: ((x1 :: _) as tl) => (x1 - x0) :: np_diff tl
  | _ => []
  end.

(** Elementwise pairing of two 1-d arrays under numpy broadcasting. *)
Definition np_broadcast {A B : Type} (xs : list A) (ys : list B)
  : result (list (A * B)) :=
  if (length xs =? length ys)%nat then Ok (zip xs ys)
  else match xs, ys with
       | [x], _ => Ok (map (fun y => (x, y)) ys)
       | _, [y] => Ok (map (fun x => (x, y)) xs)
       | _, _ => Err ValueError
       end.

(** [np.sum] of a complex array. *)
Definition np_sum (y : list C) : C := fold_left Cadd y (RtoC 0).

(** [trapz(y, x)] (numpy):
    [(diff(x) * (y[1:] + y[:-1]) / 2.0).sum()]. *)
Definition trapz (y : list C) (x : list R) : result C :=
  let d := np_diff x in
  let s := zip_with Cadd (tail y) (removelast y) in
  let! p := np_broadcast d s in
  Ok (np_sum (map (fun '(di, si) => (RtoC di * si / RtoC 2)%C) p)).

(* ===================================================================== *)
(** ** scipy routines *)
(* ===================================================================== *)

(** An integration limit: a float or [np.inf]. *)
Inductive bound : Type :=
  | Finite (x : R)
  | Infinity.

(** [scipy.integrate.quad] is adaptive: the next node depends on the
    integrand values seen so far, and the number of evaluations is bounded
    (QUADPACK's subdivision limit).  The node selection and the final
    estimate [(value, abserr)] are left abstract. *)
Record quadrature : Type := mk_quadrature {
  quad_next : R -> bound -> list (R * R) -> option R;
  quad_estimate : R -> bound -> list (R * R) -> R * R;
  quad_evals : nat
}.

(** The integrand is a closure over a mutable object: each call threads the
    object through, and an exception raised by the integrand propagates. *)
Fixpoint quad_loop {St : Type} (q : quadrature)
    (func : R -> St -> result (R * St)) (lo : R) (hi : bound)
    (fuel : nat) (seen : list (R * R)) (st : St) : result ((R * R) * St) :=
  match fuel with
  | O => Ok (quad_estimate q lo hi seen, st)
  | S fuel' =>
      match quad_next q lo hi seen with
      | None => Ok (quad_estimate q lo hi seen, st)
      | Some u =>
          let! r := func u st in
          quad_loop q func lo hi fuel' (seen ++ [(u, r.1)]) r.2
      end
  end.

Definition quad {St : Type} (q : quadrature)
    (func : R -> St -> result (R * St)) (lo : R) (hi : bound) (st : St)
  : result ((R * R) * St) :=
  quad_loop q func lo hi (quad_evals q) [] st.

(** The loop of [scipy.optimize.bisect] (Zeros/bisect.c).  [fa] is the
    value at the initial left end and is never updated. *)
Fixpoint bisect_loop (f : R -> R) (fa xtol rtol : R) (iter : nat) (xa dm : R)
  : result R :=
  match iter with
  | O => Err RuntimeError
  | S iter' =>
      let dm := dm * 0.5 in
      let xm := xa + dm in
      let fm := f xm in
      let xa := if Rle_dec 0 (fm * fa) then xm else xa in
      if Req_dec_T fm 0 then Ok xm
      else if Rlt_dec (Rabs dm) (xtol + rtol * Rabs xm) then Ok xm
      else bisect_loop f fa xtol rtol iter' xa dm
  end.

(** scipy's floor on [rtol]: [4 * np.finfo(float).eps]. *)
Definition bisect_rtol_min : R := 4 * / 2 ^ 52.
(** scipy's defaults [xtol=2e-12] and [maxiter=100]. *)
Definition bisect_xtol : R := 2e-12.
Definition bisect_maxiter : nat := 100.

(** [scipy.optimize.bisect(f, a, b, xtol, rtol, maxiter, disp=True)]: equal
    signs at the two ends raise [ValueError], running out of iterations
    raises [RuntimeError]. *)
Definition bisect (f : R -> R) (xa xb xtol rtol : R) (maxiter : nat) : result R :=
  if Rle_dec xtol 0 then Err ValueError
  else if Rlt_dec rtol bisect_rtol_min then Err ValueError
  else
    let fa := f xa in
    let fb := f xb in
    if Rlt_dec 0 (fa * fb) then Err ValueError
    else if Req_dec_T fa 0 then Ok xa
    else if Req_dec_T fb 0 then Ok xb
    else bisect_loop f fa xtol rtol maxiter xa (xb - xa).

(** Python's [x / y] on two floats. *)
Definition py_fdiv (x y : R) : result R :=
  if Req_dec_T y 0 then Err ZeroDivisionError else Ok (x / y).

(* ===================================================================== *)
(** ** The notebook's code *)
(* ===================================================================== *)

(** The object state of a [roughHeston] instance.  [frac] and [frac2] are
    Python numbers ([dt ** alpha] is complex for a negative [dt]); [h_hat]
    is unset until [fill_h] first runs. *)
Record roughHeston : Type := mk_roughHeston {
  T : R;
  n : Z;
  dt : R;
  time_grid : list R;
  S0 : R;
  kappa : R;
  nu : R;
  theta : R;
  alpha : R;
  V0 : R;
  rho : R;
  frac : pyval;
  frac2 : pyval;
  frac_bar : R;
  a_ : matrix;
  b_ : matrix;
  h_hat : option (list C)
}.

(** [self.a_ = m] *)
Definition set_a_ (m : matrix) (self : roughHeston) : roughHeston :=
  mk_roughHeston (T self) (n self) (dt self) (time_grid self) (S0 self)
    (kappa self) (nu self) (theta self) (alpha self) (V0 self) (rho self)
    (frac self) (frac2 self) (frac_bar self) m (b_ self) (h_hat self).

(** [self.b_ = m] *)
Definition set_b_ (m : matrix) (self : roughHeston) : roughHeston :=
  mk_roughHeston (T self) (n self) (dt self) (time_grid self) (S0 self)
    (kappa self) (nu self) (theta self) (alpha self) (V0 self) (rho self)
    (frac self) (frac2 self) (frac_bar self) (a_ self) m (h_hat self).

(** [self.h_hat = h] *)
Definition set_h_hat (h : list C) (self : roughHeston) : roughHeston :=
  mk_roughHeston (T self) (n self) (dt self) (time_grid self) (S0 self)
    (kappa self) (nu self) (theta self) (alpha self) (V0 self) (rho self)
    (frac self) (frac2 self) (frac_bar self) (a_ self) (b_ self) (Some h).

(** Reading [self.h_hat]. *)
Definition get_h_hat (self : roughHeston) : result (list C) :=
  match h_hat self with
  | Some h => Ok h
  | None => Err AttributeError
  end.

Section Notebook.

(** [scipy.special.gamma], [scipy.stats.norm.cdf] and the quadrature rule
    behind [scipy.integrate.quad]. *)
Context (gamma : R -> R) (norm_cdf : R -> R) (quad_rule : quadrature).

(** *** Black-Scholes *)

(** [BlackScholesCallPut(S, K, T, sigma, r, call_put)] for positive [S],
    [K], [T] and [sigma], where every operation is finite.  (Outside that
    domain the value below is not the code's: [S/K] on Python floats raises
    ZeroDivisionError at [K = 0.], and numpy's log and division give inf or
    nan at [S <= 0], [T <= 0] or [sigma = 0].) *)
Definition BlackScholesCallPut (S K T sigma r : R) (call_put : Z) : R :=
  let d1 := (ln (S / K) + (r + 0.5 * sigma ^ 2) * T) / (sigma * sqrt T) in
  let d2 := d1 - sigma * sqrt T in
  IZR call_put * (S * norm_cdf (IZR call_put * d1)
                  - K * exp (- r * T) * norm_cdf (IZR call_put * d2)).

(** The objective of [impliedVol]. *)
Definition smileMin (vol S K T r price : R) : R :=
  price - BlackScholesCallPut S K T vol r 1.

Definition impliedVol (S K T r price : R) : result R :=
  let vMin := 0.0001 in
  let vMax := 3 in
  bisect (fun vol => smileMin vol S K T r price) vMin vMax
         bisect_xtol 1e-15 bisect_maxiter.

(** *** class roughHeston *)

(** Fractional Riccati equation. *)
Definition F (self : roughHeston) (a x : C) : C :=
  (RtoC (- 0.5) * (a * a + Ci * a)
   - (RtoC (kappa self) - Ci * a * RtoC (rho self) * RtoC (nu self)) * x
   + RtoC (0.5 * nu self * nu self) * x * x)%C.

Definition a (self : roughHeston) (j k : Z) : result pyval :=
  let! res :=
    (if (j =? 0)%Z then
       let! p1 := py_pow (IZR (k - 1)) (alpha self + 1) in
       let! p2 := py_pow (IZR k) (alpha self) in
       Ok (py_sub p1 (py_mul (PyFloat (IZR k - alpha self - 1)) p2))
     else if (j =? k)%Z then Ok (PyFloat 1)
     else
       let! p1 := py_pow (IZR (k + 1 - j)) (alpha self + 1) in
       let! p2 := py_pow (IZR (k - 1 - j)) (alpha self + 1) in
       let! p3 := py_pow (IZR (k - j)) (alpha self + 1) in
       Ok (py_sub (py_add p1 p2) (py_mul (PyFloat 2) p3))) in
  Ok (py_mul (frac self) res).

Definition fill_a (self : roughHeston) : result roughHeston :=
  let! z := np_zeros2 (n self + 1) (n self + 1) in
  let self := set_a_ z self in
  for_in (py_range 1 (n self + 1)) (fun k self =>
    for_in (py_range 0 (k + 1)) (fun j self =>
      let! v := a self j k in
      let! m := mat_store (a_ self) j k v in
      Ok (set_a_ m self)) self) self.

Definition b (self : roughHeston) (j k : Z) : result pyval :=
  let! p1 := py_pow (IZR (k - j)) (alpha self) in
  let! p2 := py_pow (IZR (k - j - 1)) (alpha self) in
  Ok (py_mul (frac2 self) (py_sub p1 p2)).

Definition fill_b (self : roughHeston) : result roughHeston :=
  let! z := np_zeros2 (n self) (n self + 1) in
  let self := set_b_ z self in
  for_in (py_range 1 (n self + 1)) (fun k self =>
    for_in (py_range 0 k) (fun j self =>
      let! v := b self j k in
      let! m := mat_store (b_ self) j k v in
      Ok (set_b_ m self)) self) self.

Definition init (nbTimeSteps : Z) (heston_params : gmap string R) (T : R)
  : result roughHeston :=
  let! dt := py_truediv T nbTimeSteps in
  let! time_grid := linspace 0 T (nbTimeSteps + 1) in
  let! S0 := dict_get heston_params "S0" in
  let! kappa := dict_get heston_params "kappa" in
  let! nu := dict_get heston_params "nu" in
  let! theta := dict_get heston_params "theta" in
  let! alpha := dict_get heston_params "alpha" in
  let! V0 := dict_get heston_params "V0" in
  let! rho := dict_get heston_params "rho" in
  let! p := py_pow dt alpha in
  let! frac := np_div p (PyFloat (gamma (alpha + 2))) in
  let! p2 := py_pow dt alpha in
  let! frac2 := np_div p2 (PyFloat (gamma (alpha + 1))) in
  let frac_bar := 1 / gamma (1 - alpha) in
  let self := mk_roughHeston T nbTimeSteps dt time_grid S0 kappa nu theta
                alpha V0 rho frac frac2 frac_bar [] [] None in
  let! self := fill_a self in
  fill_b self.

(** Computation of two sums used in the scheme. *)
Definition h_P (self : roughHeston) (a : C) (k : Z) : result C :=
  for_in (py_range 0 k) (fun j res =>
    let! bjk := mat_get (b_ self) j k in
    let! h := get_h_hat self in
    let! hj := np_get h j in
    Ok (res + RtoC bjk * F self a hj)%C) (RtoC 0).

Definition sum_a (self : roughHeston) (a : C) (k : Z) : result C :=
  for_in (py_range 0 k) (fun j res =>
    let! ajk := mat_get (a_ self) j k in
    let! h := get_h_hat self in
    let! hj := np_get h j in
    Ok (res + RtoC ajk * F self a hj)%C) (RtoC 0).

(** Solving function h for each time step. *)
Definition fill_h (self : roughHeston) (a : C) : result roughHeston :=
  let! z := np_zeros_complex (n self + 1) in
  let self := set_h_hat z self in
  for_in (py_range 1 (n self + 1)) (fun k self =>
    let! hP := h_P self a k in
    let! sa := sum_a self a k in
    let! akk := mat_get (a_ self) k k in
    let! h := get_h_hat self in
    let! h' := np_set h k (sa + RtoC akk * F self a hP)%C in
    Ok (set_h_hat h' self)) self.

(** Characteristic function computation.  ([**] on numpy scalars: inf / nan
    where [float_pow] is not meaningful.) *)
Definition rHeston_char_function (self : roughHeston) (a : C)
  : result (C * roughHeston) :=
  let! self := fill_h self a in
  let! h := get_h_hat self in
  let! integral := trapz h (time_grid self) in
  let func := fun s => float_pow (T self - s) (1 - alpha self) in
  let! y := map_in (py_range 0 (n self)) (fun i =>
              let! ti := np_get (time_grid self) i in
              let! ti1 := np_get (time_grid self) (i + 1) in
              let! hi := np_get h i in
              Ok (RtoC (func ti - func ti1) * hi)%C) in
  let frac_integral :=
    (RtoC (frac_bar self) * np_sum y / RtoC (1 - alpha self))%C in
  Ok (Cexp (RtoC (kappa self * theta self) * integral
            + RtoC (V0 self) * frac_integral)%C, self).

(** Pricing with an inverse Fourier transform. *)
Definition rHeston_Call (self : roughHeston) (k upLim : R)
  : result (R * roughHeston) :=
  let K := S0 self * exp k in
  let func := fun (u : R) (self : roughHeston) =>
    let! r := rHeston_char_function self (RtoC u - RtoC 0.5 * Ci)%C in
    Ok (Re (Cexp (- Ci * RtoC u * RtoC k) * r.1)%C / (u ^ 2 + 0.25), r.2) in
  let! integ := quad quad_rule func 0 (Finite 5) self in
  Ok (S0 self - sqrt (S0 self * K) * integ.1.1 / PI, integ.2).

(** Analytical formula for the standard Heston characteristic function
    (Python floats in [self]: a zero [nu] raises). *)
Definition heston_char_function (self : roughHeston) (u : C) : result C :=
  let nu2 := nu self ^ 2 in
  let T := T self in
  let dif := (RtoC (kappa self) - RtoC (rho self * nu self) * u * Ci)%C in
  let d := Csqrt (dif * dif + RtoC nu2 * (Ci * u + u * u))%C in
  let g := ((dif - d) / (dif + d))%C in
  let e1 := Cexp (Ci * u * RtoC (ln (S0 self)))%C in
  let! c2 := py_fdiv (kappa self * theta self) nu2 in
  let e2 := Cexp (RtoC c2
              * ((dif - d) * RtoC T
                 - RtoC 2 * Clog ((RtoC 1 - g * Cexp (- d * RtoC T))
                                  / (RtoC 1 - g))))%C in
  let! c3 := py_fdiv (V0 self) nu2 in
  let e3 := Cexp (RtoC c3 * (dif - d) * (RtoC 1 - Cexp (- d * RtoC T))
                  / (RtoC 1 - g * Cexp (- d * RtoC T)))%C in
  Ok (e1 * e2 * e3)%C.

(** Pricing with an inverse Fourier transform. *)
Definition heston_Call (self : roughHeston) (k : R) : result (R * roughHeston) :=
  let K := S0 self * exp k in
  let func := fun (u : R) (self : roughHeston) =>
    let! c := heston_char_function self (RtoC u - RtoC 0.5 * Ci)%C in
    Ok (Re (Cexp (- Ci * RtoC u * RtoC k) * c)%C / (u ^ 2 + 0.25), self) in
  let! integ := quad quad_rule func 0 Infinity self in
  Ok (S0 self - sqrt (S0 self * K) * integ.1.1 / PI, integ.2).

End Notebook.

(* ===================================================================== *)
(** ** Specification-side definitions *)
(* ===================================================================== *)

(** *** Sums and array entries *)

(** The sum of [f 0 .. f (k-1)], associated to the right. *)
Definition Csum (f : nat -> C) (k : nat) : C :=
  fold_right Cadd (RtoC 0) (map f (seq 0 k)).

(** The same over the reals. *)
Definition Rsum (f : nat -> R) (k : nat) : R :=
  fold_right Rplus 0 (map f (seq 0 k)).

(** [m] is an [r] x [c] array whose entry [(j, k)] is [f j k]. *)
Definition mat_is (r c : Z) (f : Z -> Z -> R) (m : matrix) : Prop :=
  length m = Z.to_nat r /\
  forall j, (0 <= j < r)%Z ->
    exists row, m !! Z.to_nat j = Some row /\ length row = Z.to_nat c /\
      forall k, (0 <= k < c)%Z -> row !! Z.to_nat k = Some (f j k).

(** Entry [(j, k)] of an array, 0 outside its shape (for statements only). *)
Definition mat_at (m : matrix) (j k : nat) : R :=
  match m !! j with
  | Some row => match row !! k with Some x => x | None => 0 end
  | None => 0
  end.

(** Element [i] of a complex array, 0 outside (for statements only). *)
Definition vec_at (h : list C) (i : nat) : C :=
  match h !! i with Some z => z | None => RtoC 0 end.

(** *** The formulas of the specification *)

(** The corrector weights [a_{j,k}] as the specification states them
    (0 outside the stated index ranges). *)
Definition a_weight (gamma : R -> R) (dt alpha : R) (j k : Z) : R :=
  let C_a := float_pow dt alpha / gamma (alpha + 2) in
  if ((0 <? j) && (j <? k))%Z then
    C_a * (float_pow (IZR (k + 1 - j)) (alpha + 1)
           + float_pow (IZR (k - 1 - j)) (alpha + 1)
           - 2 * float_pow (IZR (k - j)) (alpha + 1))
  else if ((j =? 0) && (1 <=? k))%Z then
    C_a * (float_pow (IZR (k - 1)) (alpha + 1)
           - (IZR k - alpha - 1) * float_pow (IZR k) alpha)
  else if ((j =? k) && (1 <=? k))%Z then C_a
  else 0.

(** The predictor weights [b_{j,k}] as the specification states them. *)
Definition b_weight (gamma : R -> R) (dt alpha : R) (j k : Z) : R :=
  let C_b := float_pow dt alpha / gamma (alpha + 1) in
  if ((0 <=? j) && (j <? k))%Z then
    C_b * (float_pow (IZR (k - j)) alpha - float_pow (IZR (k - j - 1)) alpha)
  else 0.

(** The Riccati kernel as the specification states it:
    [F(a, x) = -1/2 (a^2 + i a) - (kappa - i a rho nu) x + 1/2 nu^2 x^2]. *)
Definition riccati_kernel (kappa rho nu : R) (a x : C) : C :=
  (- (RtoC (1 / 2) * (a * a + Ci * a))
   - (RtoC kappa - Ci * (a * (RtoC rho * RtoC nu))) * x
   + RtoC (1 / 2) * ((RtoC nu * RtoC nu) * (x * x)))%C.

(** One step of the predictor-corrector recursion as the specification
    states it: from the weights and the earlier entries of [h],
    [h_P(k) = sum_{j<k} b_{j,k} F(a, h[j])],
    [sum_a(k) = sum_{j<k} a_{j,k} F(a, h[j])] and the new entry
    [sum_a(k) + a_{k,k} F(a, h_P(k))]. *)
Definition scheme_step (A B : matrix) (Fa : C -> C) (h : list C) (k : nat) : C :=
  let hP := Csum (fun j => RtoC (mat_at B j k) * Fa (vec_at h j))%C k in
  let sA := Csum (fun j => RtoC (mat_at A j k) * Fa (vec_at h j))%C k in
  (sA + RtoC (mat_at A k k) * Fa hP)%C.

(** The trapezoidal rule over [n + 1] equally spaced samples of [h]. *)
Definition trapezoid_integral (dt : R) (h : list C) (n : nat) : C :=
  Csum (fun i => RtoC dt * ((vec_at h i + vec_at h (S i)) / RtoC 2))%C n.

(** The fractional integral of the specification, with [t_i = i * dt]:
    [1/Gamma(1-alpha) * 1/(1-alpha)
       * sum_{i<n} ((T - t_i)^(1-alpha) - (T - t_{i+1})^(1-alpha)) * h[i]]. *)
Definition fractional_integral (gamma : R -> R) (T alpha dt : R) (h : list C)
    (n : nat) : C :=
  (RtoC (1 / gamma (1 - alpha)%R) * RtoC (1 / (1 - alpha))
   * Csum (fun i =>
       RtoC (float_pow (T - INR i * dt) (1 - alpha)
             - float_pow (T - INR (S i) * dt) (1 - alpha)) * vec_at h i) n)%C.

(** The rough-model price query as the specification states it: the
    dampened Fourier integrand is integrated over [0, upLim]. *)
Definition rHeston_Call_cutoff (quad_rule : quadrature) (self : roughHeston)
    (k upLim : R) : result (R * roughHeston) :=
  let K := S0 self * exp k in
  let func := fun (u : R) (self : roughHeston) =>
    let! r := rHeston_char_function self (RtoC u - RtoC 0.5 * Ci)%C in
    Ok (Re (Cexp (- Ci * RtoC u * RtoC k) * r.1)%C / (u ^ 2 + 0.25), r.2) in
  let! integ := quad quad_rule func 0 (Finite upLim) self in
  Ok (S0 self - sqrt (S0 self * K) * integ.1.1 / PI, integ.2).

(** *** Bisection *)

(** The bracket kept by the loop of [bisect]: a left end [xa] on the side
    of [fa], a right end [xa + dm] on the other side, inside [lo, hi]. *)
Definition bisect_bracket (f : R -> R) (fa lo hi xa dm : R) : Prop :=
  0 < dm /\ lo <= xa /\ xa + dm <= hi /\ 0 < f xa * fa /\ f (xa + dm) * fa < 0.

(** [v] is a zero of [f] in [lo, hi], or [f] changes sign between [v] and a
    point of [lo, hi] closer to [v] than the tolerance
    [xtol + rtol * |v|]. *)
Definition near_sign_change (f : R -> R) (xtol rtol lo hi v : R) : Prop :=
  lo <= v <= hi /\
  (f v = 0 \/
   exists w, lo <= w <= hi /\ Rabs (w - v) < xtol + rtol * Rabs v /\ f v * f w < 0).

(** *** Construction *)

(** The keys [__init__] reads from [heston_params]. *)
Definition param_keys : list string :=
  ["S0"; "kappa"; "nu"; "theta"; "alpha"; "V0"; "rho"].

(** [heston_params] has every key the constructor reads. *)
Definition complete (heston_params : gmap string R) : Prop :=
  Forall (fun key => is_Some (heston_params !! key)) param_keys.

(** The value under [key], for statements about a complete dict. *)
Definition param (heston_params : gmap string R) (key : string) : R :=
  default 0 (heston_params !! key).

(** What [roughHeston(nbTimeSteps, heston_params, T)] leaves in the object. *)
Record built (gamma : R -> R) (nbTimeSteps : Z) (heston_params : gmap string R)
    (T0 : R) (self : roughHeston) : Prop := mk_built {
  built_n : n self = nbTimeSteps;
  built_T : T self = T0;
  built_dt : dt self = T0 / IZR nbTimeSteps;
  built_time_grid :
    time_grid self = map (fun i => IZR i * (T0 / IZR nbTimeSteps))
                         (py_range 0 (nbTimeSteps + 1));
  built_S0 : heston_params !! "S0" = Some (S0 self);
  built_kappa : heston_params !! "kappa" = Some (kappa self);
  built_nu : heston_params !! "nu" = Some (nu self);
  built_theta : heston_params !! "theta" = Some (theta self);
  built_alpha : heston_params !! "alpha" = Some (alpha self);
  built_V0 : heston_params !! "V0" = Some (V0 self);
  built_rho : heston_params !! "rho" = Some (rho self);
  built_frac_bar : frac_bar self = 1 / gamma (1 - alpha self);
  built_a : mat_is (nbTimeSteps + 1) (nbTimeSteps + 1)
              (a_weight gamma (dt self) (alpha self)) (a_ self);
  built_b : mat_is nbTimeSteps (nbTimeSteps + 1)
              (b_weight gamma (dt self) (alpha self)) (b_ self);
  built_h_hat : h_hat self = None
}.

(** *** Sequences of calls on one object *)

(** A call a client can make on a built engine. *)
Inductive call : Type :=
  | CallFillH (a : C)
  | CallCharFunction (a : C)
  | CallRoughPrice (k upLim : R)
  | CallHestonPrice (k : R).

(** The object after one call (the returned value is dropped). *)
Definition run_call (quad_rule : quadrature) (self : roughHeston) (c : call)
  : result roughHeston :=
  match c with
  | CallFillH a => fill_h self a
  | CallCharFunction a => let! r := rHeston_char_function self a in Ok r.2
  | CallRoughPrice k upLim => let! r := rHeston_Call quad_rule self k upLim in Ok r.2
  | CallHestonPrice k => let! r := heston_Call quad_rule self k in Ok r.2
  end.

(** The object after a sequence of calls, in order. *)
Definition run_calls (quad_rule : quadrature) (self : roughHeston)
    (cs : list call) : result roughHeston :=
  for_in cs (fun c s => run_call quad_rule s c) self.

(** [s] is [self] up to the attribute [h_hat]. *)
Definition same_but_h_hat (self s : roughHeston) : Prop :=
  s = self \/ exists h, s = set_h_hat h self.

(** *** Concrete instances for the examples *)

(** [heston_params] of the notebook. *)
Definition notebook_params : gmap string R :=
  <["kappa" := 0.3]> (<["nu" := 0.3]> (<["alpha" := 0.6]> (<["rho" := - 0.7]>
  (<["V0" := 0.02]> (<["theta" := 0.02]> (<["S0" := 1]> ∅)))))).

(** The notebook's parameters without mean reversion ([kappa = 0]). *)
Definition flat_params : gmap string R := <["kappa" := 0]> notebook_params.

(** A parameter dict that breaks the specification's invariants:
    [alpha] outside (0.5, 1), [rho] outside [-1, 1], [S0] and [V0] not
    positive. *)
Definition invalid_params : gmap string R :=
  <["kappa" := 0.3]> (<["nu" := 0.3]> (<["alpha" := 0.3]> (<["rho" := 2]>
  (<["V0" := - 0.02]> (<["theta" := 0.02]> (<["S0" := - 1]> ∅)))))).

(** Stand-ins for the library parameters in the examples: Stirling's
    formula for [gamma], the logistic approximation of the normal cdf, and
    the one-node midpoint rule for [quad]. *)
Definition stirling_gamma (x : R) : R := sqrt (2 * PI / x) * Rpower (x / exp 1) x.

Definition logistic_cdf (x : R) : R := 1 / (1 + exp (- 1.702 * x)).

Definition midpoint_rule : quadrature :=
  mk_quadrature
    (fun lo hi seen =>
       match seen, hi with
       | [], Finite x => Some ((lo + x) / 2)
       | [], Infinity => Some (lo + 1)
       | _ :: _, _ => None
       end)
    (fun lo hi seen =>
       match seen, hi with
       | (_, y) :: _, Finite x => ((x - lo) * y, 0)
       | (_, y) :: _, Infinity => (y, 0)
       | [], _ => (0, 0)
       end)
    1.

(* ===================================================================== *)
(** ** Definitions for the further properties *)
(* ===================================================================== *)

(** The value a method returns, without the object it leaves. *)
Definition value_of {A S : Type} (r : result (A * S)) : result A :=
  let! x := r in Ok x.1.

(** Complex conjugate. *)
Definition Cconj (z : C) : C := mkC (Re z) (- Im z).

(* ===================================================================== *)
(** ** Proof automation *)
(* ===================================================================== *)

(** Polynomial identities over [C], componentwise. *)
Ltac Cring :=
  intros;
  repeat match goal with z : C |- _ => destruct z end;
  unfold Cadd, Csub, Cmul, Copp, RtoC, Ci; cbn [Re Im]; f_equal; ring.

(** Case analysis on every integer comparison in the goal. *)
Ltac Zcases :=
  repeat match goal with
  | |- context [(?x =? ?y)%Z] => destruct (Z.eqb_spec x y)
  | |- context [(?x <? ?y)%Z] => destruct (Z.ltb_spec x y)
  | |- context [(?x <=? ?y)%Z] => destruct (Z.leb_spec x y)
  end; cbn [andb orb negb]; subst; try reflexivity; try lia.

(* ===================================================================== *)
(** * Properties *)
(* ===================================================================== *)

(** ** Loops *)

Lemma py_range_nil (lo hi : Z) : (hi <= lo)%Z -> py_range lo hi = [].
Proof.
  intros H. unfold py_range.
  replace (Z.to_nat (hi - lo)) with 0%nat by lia. reflexivity.
Qed.

Lemma py_range_cons (lo hi : Z) :
  (lo < hi)%Z -> py_range lo hi = lo :: py_range (lo + 1) hi.
Proof.
  intros H. unfold py_range.
  replace (Z.to_nat (hi - lo)) with (S (Z.to_nat (hi - (lo + 1)))) by lia.
  cbn [seq map]. f_equal; [lia|].
  rewrite <- seq_shift, map_map. apply map_ext. intros i. lia.
Qed.

Lemma py_range_length (lo hi : Z) : length (py_range lo hi) = Z.to_nat (hi - lo).
Proof. unfold py_range. now rewrite length_map, length_seq. Qed.

Lemma py_range_lookup (lo hi : Z) (i : nat) :
  (i < Z.to_nat (hi - lo))%nat -> py_range lo hi !! i = Some (lo + Z.of_nat i)%Z.
Proof.
  intros H. unfold py_range. rewrite list_lookup_fmap.
  rewrite lookup_seq_lt by exact H. reflexivity.
Qed.

(** Hoare rule for [for i in range(lo, hi)] with total correctness. *)
Lemma for_in_range {S : Type} (Inv : Z -> S -> Prop)
    (body : Z -> S -> result S) (hi : Z) :
  (forall i s, (i < hi)%Z -> Inv i s ->
     exists s', body i s = Ok s' /\ Inv (i + 1)%Z s') ->
  forall (m : nat) (lo : Z) (s : S),
    (lo <= hi)%Z -> m = Z.to_nat (hi - lo) -> Inv lo s ->
    exists s', for_in (py_range lo hi) body s = Ok s' /\ Inv hi s'.
Proof.
  intros Hbody m. induction m as [|m IH]; intros lo s Hle Hm Hinv.
  - rewrite py_range_nil by lia. replace hi with lo by lia.
    exists s. split; [reflexivity | exact Hinv].
  - rewrite py_range_cons by lia. cbn [for_in].
    destruct (Hbody lo s) as (s1 & Hs1 & Hinv1); [lia | exact Hinv |].
    rewrite Hs1. cbn [bind]. apply IH; [lia | lia | exact Hinv1].
Qed.

Lemma for_in_range_inv {S : Type} (Inv : Z -> S -> Prop)
    (body : Z -> S -> result S) (lo hi : Z) (s : S) :
  (lo <= hi)%Z -> Inv lo s ->
  (forall i s, (lo <= i < hi)%Z -> Inv i s ->
     exists s', body i s = Ok s' /\ Inv (i + 1)%Z s') ->
  exists s', for_in (py_range lo hi) body s = Ok s' /\ Inv hi s'.
Proof.
  intros Hle Hinv Hbody.
  destruct (for_in_range (fun i s => (lo <= i)%Z /\ Inv i s) body hi)
    with (m := Z.to_nat (hi - lo)) (lo := lo) (s := s)
    as (s' & Hs' & _ & Hfin).
  - intros i s0 Hi [Hlo Hi0].
    destruct (Hbody i s0) as (s1 & H1 & H2); [lia | exact Hi0 |].
    exists s1. split; [exact H1 | split; [lia | exact H2]].
  - exact Hle.
  - reflexivity.
  - split; [lia | exact Hinv].
  - exists s'. split; assumption.
Qed.

(** The same for a generator consumed by [map_in]. *)
Lemma map_in_range {B : Type} (f : Z -> result B) (g : Z -> B) (hi : Z) :
  forall (m : nat) (lo : Z),
    m = Z.to_nat (hi - lo) ->
    (forall i, (lo <= i < hi)%Z -> f i = Ok (g i)) ->
    map_in (py_range lo hi) f = Ok (map g (py_range lo hi)).
Proof.
  induction m as [|m IH]; intros lo Hm Hf.
  - rewrite py_range_nil by lia. reflexivity.
  - rewrite py_range_cons by lia. cbn [map_in map].
    rewrite Hf by lia. cbn [bind].
    rewrite (IH (lo + 1)%Z) by (try lia; intros; apply Hf; lia).
    reflexivity.
Qed.

(** ** Arrays *)

Lemma np_index_ok (len : nat) (i : Z) :
  (0 <= i < Z.of_nat len)%Z -> np_index len i = Ok (Z.to_nat i).
Proof.
  intros H. unfold np_index.
  destruct (Z.ltb_spec i 0) as [?|_]; [lia|].
  destruct (Z.leb_spec 0 i); [|lia].
  destruct (Z.ltb_spec i (Z.of_nat len)); [|lia].
  reflexivity.
Qed.

Lemma np_get_ok {A : Type} (arr : list A) (i : Z) (x : A) :
  (0 <= i)%Z -> arr !! Z.to_nat i = Some x -> np_get arr i = Ok x.
Proof.
  intros Hi Hx. unfold np_get.
  pose proof (lookup_lt_Some _ _ _ Hx) as Hlt.
  rewrite np_index_ok by lia. cbn [bind]. now rewrite Hx.
Qed.

Lemma np_set_ok {A : Type} (arr : list A) (i : Z) (x : A) :
  (0 <= i < Z.of_nat (length arr))%Z ->
  np_set arr i x = Ok (<[Z.to_nat i := x]> arr).
Proof. intros H. unfold np_set. now rewrite np_index_ok. Qed.

Lemma mat_is_get (r c : Z) (f : Z -> Z -> R) (m : matrix) (j k : Z) :
  mat_is r c f m -> (0 <= j < r)%Z -> (0 <= k < c)%Z ->
  mat_get m j k = Ok (f j k).
Proof.
  intros [Hlen Hrows] Hj Hk.
  destruct (Hrows j Hj) as (row & Hrow & Hrl & Hent).
  unfold mat_get. rewrite (np_get_ok m j row) by (lia || exact Hrow).
  cbn [bind]. apply np_get_ok; [lia | now apply Hent].
Qed.

Lemma mat_is_at (r c : Z) (f : Z -> Z -> R) (m : matrix) (j k : Z) :
  mat_is r c f m -> (0 <= j < r)%Z -> (0 <= k < c)%Z ->
  mat_at m (Z.to_nat j) (Z.to_nat k) = f j k.
Proof.
  intros [Hlen Hrows] Hj Hk.
  destruct (Hrows j Hj) as (row & Hrow & Hrl & Hent).
  unfold mat_at. now rewrite Hrow, (Hent k Hk).
Qed.

Lemma mat_is_ext (r c : Z) (f g : Z -> Z -> R) (m : matrix) :
  (forall j k, (0 <= j < r)%Z -> (0 <= k < c)%Z -> f j k = g j k) ->
  mat_is r c f m -> mat_is r c g m.
Proof.
  intros Hfg [Hlen Hrows]. split; [exact Hlen|].
  intros j Hj. destruct (Hrows j Hj) as (row & Hrow & Hrl & Hent).
  exists row. repeat split; try assumption.
  intros k Hk. rewrite <- Hfg by assumption. now apply Hent.
Qed.

Lemma np_zeros2_is (r c : Z) :
  (0 <= r)%Z -> (0 <= c)%Z ->
  exists m, np_zeros2 r c = Ok m /\ mat_is r c (fun _ _ => 0) m.
Proof.
  intros Hr Hc. unfold np_zeros2.
  destruct (Z.ltb_spec r 0); [lia|]. destruct (Z.ltb_spec c 0); [lia|].
  cbn [orb]. eexists. split; [reflexivity|]. unfold mat_is.
  split; [now rewrite length_replicate|].
  intros j Hj. exists (replicate (Z.to_nat c) 0).
  split; [apply lookup_replicate_2; lia|].
  split; [now rewrite length_replicate|].
  intros k Hk. apply lookup_replicate_2. lia.
Qed.

Lemma mat_store_is (r c : Z) (f : Z -> Z -> R) (m : matrix) (j k : Z) (x : R) :
  mat_is r c f m -> (0 <= j < r)%Z -> (0 <= k < c)%Z ->
  exists m', mat_store m j k (PyFloat x) = Ok m' /\
    mat_is r c (fun j' k' => if ((j' =? j) && (k' =? k))%Z then x else f j' k') m'.
Proof.
  intros [Hlen Hrows] Hj Hk.
  destruct (Hrows j Hj) as (row & Hrow & Hrl & Hent).
  unfold mat_store. rewrite (np_get_ok m j row) by (lia || exact Hrow).
  cbn [bind]. rewrite np_index_ok by lia. cbn [bind np_float].
  rewrite np_index_ok by lia. cbn [bind].
  eexists. split; [reflexivity|]. unfold mat_is.
  split; [now rewrite length_insert|].
  intros j' Hj'. destruct (Z.eqb_spec j' j) as [->|Hne].
  - exists (<[Z.to_nat k := x]> row).
    split; [apply list_lookup_insert_eq; lia|].
    split; [now rewrite length_insert|].
    intros k' Hk'. cbn [andb]. destruct (Z.eqb_spec k' k) as [->|Hnk].
    + apply list_lookup_insert_eq. lia.
    + rewrite list_lookup_insert_ne by lia. now apply Hent.
  - destruct (Hrows j' Hj') as (row' & Hrow' & Hrl' & Hent').
    exists row'. split; [rewrite list_lookup_insert_ne by lia; exact Hrow'|].
    split; [exact Hrl'|]. intros k' Hk'. cbn [andb]. now apply Hent'.
Qed.

(** ** Complex arithmetic *)

Lemma C_ext (z w : C) : Re z = Re w -> Im z = Im w -> z = w.
Proof. destruct z, w. cbn. intros -> ->. reflexivity. Qed.

Lemma Cadd_comm (z w : C) : (z + w = w + z)%C.
Proof. Cring. Qed.

Lemma Cadd_assoc (z w u : C) : (z + (w + u) = z + w + u)%C.
Proof. Cring. Qed.

Lemma Cadd_0_l (z : C) : (RtoC 0 + z = z)%C.
Proof. Cring. Qed.

Lemma Cadd_0_r (z : C) : (z + RtoC 0 = z)%C.
Proof. Cring. Qed.

Lemma fold_left_Cadd (l : list C) (z : C) :
  fold_left Cadd l z = (z + fold_right Cadd (RtoC 0) l)%C.
Proof.
  revert z. induction l as [|x l IH]; intros z; cbn [fold_left fold_right].
  - now rewrite Cadd_0_r.
  - now rewrite IH, Cadd_assoc.
Qed.

Lemma np_sum_Csum (f : nat -> C) (k : nat) :
  np_sum (map f (seq 0 k)) = Csum f k.
Proof. unfold np_sum, Csum. now rewrite fold_left_Cadd, Cadd_0_l. Qed.

Lemma Csum_S (f : nat -> C) (k : nat) : Csum f (S k) = (Csum f k + f k)%C.
Proof.
  unfold Csum. rewrite seq_S, map_app. cbn [map plus].
  generalize (map f (seq 0 k)). intros l.
  induction l as [|x l IH]; cbn [fold_right app].
  - now rewrite Cadd_comm.
  - now rewrite IH, Cadd_assoc.
Qed.

Lemma Csum_ext (f g : nat -> C) (k : nat) :
  (forall j, (j < k)%nat -> f j = g j) -> Csum f k = Csum g k.
Proof.
  intros H. induction k as [|k IH]; [reflexivity|].
  rewrite !Csum_S, IH, H by (intros; try apply H; lia). reflexivity.
Qed.

Lemma Rsum_S (f : nat -> R) (k : nat) : Rsum f (S k) = Rsum f k + f k.
Proof.
  unfold Rsum. rewrite seq_S, map_app. cbn [map plus].
  generalize (map f (seq 0 k)). intros l.
  induction l as [|x l IH]; cbn [fold_right app]; [ring | rewrite IH; ring].
Qed.

(** ** Powers *)

Lemma py_pow_nonneg (x y : R) :
  0 <= x -> 0 <= y -> py_pow x y = Ok (PyFloat (float_pow x y)).
Proof.
  intros Hx Hy. unfold py_pow.
  destruct (Req_dec_T x 0) as [->|Hne].
  - destruct (Rlt_dec y 0); [lra | reflexivity].
  - destruct (Rlt_dec x 0); [lra | reflexivity].
Qed.

Lemma py_pow_pos (x y : R) : 0 < x -> py_pow x y = Ok (PyFloat (float_pow x y)).
Proof.
  intros Hx. unfold py_pow.
  destruct (Req_dec_T x 0) as [->|Hne]; [lra|].
  destruct (Rlt_dec x 0); [lra | reflexivity].
Qed.

Lemma float_pow_0_l (y : R) : y <> 0 -> float_pow 0 y = 0.
Proof.
  intros Hy. unfold float_pow.
  destruct (Rlt_dec 0 0); [lra|].
  destruct (Req_dec_T 0 0); [|lra].
  destruct (Req_dec_T y 0); [lra | reflexivity].
Qed.

(** ** Filling a weight matrix *)

(** The two nested loops of [fill_a] and [fill_b], over any object with a
    matrix attribute: column [k] receives rows [0 .. hi k - 1]. *)
Lemma fill_loops {S : Type} (getm : S -> matrix) (setm : matrix -> S -> S)
    (val : S -> Z -> Z -> result pyval) (v : Z -> Z -> R) (hi : Z -> Z)
    (r c N : Z) (s0 : S) (m0 : matrix) :
  (forall m s, getm (setm m s) = m) ->
  (forall m m' s, setm m' (setm m s) = setm m' s) ->
  (forall m j k, (1 <= k < N)%Z -> (0 <= j < hi k)%Z ->
     val (setm m s0) j k = Ok (PyFloat (v j k))) ->
  (forall k, (1 <= k < N)%Z -> (0 <= hi k <= r)%Z) ->
  (1 <= N <= c)%Z ->
  mat_is r c (fun _ _ => 0) m0 ->
  exists m,
    for_in (py_range 1 N) (fun k s =>
      for_in (py_range 0 (hi k)) (fun j s =>
        let! x := val s j k in
        let! m' := mat_store (getm s) j k x in
        Ok (setm m' s)) s) (setm m0 s0) = Ok (setm m s0) /\
    mat_is r c (fun j k =>
      if ((1 <=? k) && (k <? N) && (0 <=? j) && (j <? hi k))%Z then v j k else 0) m.
Proof.
  intros Hget Hset Hval Hhi HN Hm0.
  pose (filled := fun (k0 j0 j k : Z) =>
    (((1 <=? k) && (k <? k0) && (0 <=? j) && (j <? hi k))
     || ((k =? k0) && (0 <=? j) && (j <? j0)))%Z).
  pose (Inv := fun (k0 j0 : Z) (s : S) =>
    exists m, s = setm m s0 /\
      mat_is r c (fun j k => if filled k0 j0 j k then v j k else 0) m).
  destruct (for_in_range_inv (fun k s => Inv k 0%Z s)
    (fun k s => for_in (py_range 0 (hi k)) (fun j s =>
        let! x := val s j k in
        let! m' := mat_store (getm s) j k x in
        Ok (setm m' s)) s) 1 N (setm m0 s0)) as (s' & Hrun & m & -> & Hm).
  - lia.
  - exists m0. split; [reflexivity|].
    eapply mat_is_ext; [|exact Hm0].
    intros j k Hj Hk. unfold filled. Zcases.
  - intros k s Hk Hinv.
    destruct (for_in_range_inv (fun j s => Inv k j s)
      (fun j s => let! x := val s j k in
                  let! m' := mat_store (getm s) j k x in
                  Ok (setm m' s)) 0 (hi k) s) as (s1 & Hrun1 & m1 & -> & Hm1).
    + specialize (Hhi k Hk). lia.
    + exact Hinv.
    + intros j s1 Hj (m1 & -> & Hm1).
      rewrite Hval by lia. cbn [bind]. rewrite Hget.
      destruct (mat_store_is r c _ m1 j k (v j k) Hm1) as (m2 & -> & Hm2).
      * specialize (Hhi k Hk). lia.
      * lia.
      * cbn [bind]. eexists. split; [reflexivity|].
        exists m2. split; [apply Hset|].
        eapply mat_is_ext; [|exact Hm2].
        intros j' k' Hj' Hk'. unfold filled. cbn beta. Zcases.
    + exists (setm m1 s0). split; [exact Hrun1|].
      exists m1. split; [reflexivity|].
      eapply mat_is_ext; [|exact Hm1].
      intros j' k' Hj' Hk'. unfold filled. Zcases.
  - exists m. split; [exact Hrun|].
    eapply mat_is_ext; [|exact Hm].
    intros j k Hj Hk. unfold filled. cbn beta. Zcases.
Qed.

(** ** Construction *)

Lemma a_value (gamma : R -> R) (self : roughHeston) (j k : Z) :
  frac self = PyFloat (float_pow (dt self) (alpha self) / gamma (alpha self + 2)) ->
  0 <= alpha self -> (1 <= k)%Z -> (0 <= j <= k)%Z ->
  a self j k = Ok (PyFloat (a_weight gamma (dt self) (alpha self) j k)).
Proof.
  intros Hfrac Ha Hk Hj. unfold a, a_weight. rewrite Hfrac.
  destruct (Z.eqb_spec j 0) as [->|Hj0].
  - rewrite py_pow_nonneg by (try lra; apply IZR_le; lia).
    rewrite py_pow_pos by (apply IZR_lt; lia).
    cbn [bind py_sub py_mul py_binop]. Zcases.
  - destruct (Z.eqb_spec j k) as [->|Hjk].
    + cbn [bind py_mul py_binop]. Zcases. do 2 f_equal. ring.
    + rewrite py_pow_pos by (apply IZR_lt; lia).
      rewrite py_pow_nonneg by (try lra; apply IZR_le; lia).
      rewrite py_pow_pos by (apply IZR_lt; lia).
      cbn [bind py_sub py_add py_mul py_binop]. Zcases.
Qed.

Lemma b_value (gamma : R -> R) (self : roughHeston) (j k : Z) :
  frac2 self = PyFloat (float_pow (dt self) (alpha self) / gamma (alpha self + 1)) ->
  0 <= alpha self -> (0 <= j < k)%Z ->
  b self j k = Ok (PyFloat (b_weight gamma (dt self) (alpha self) j k)).
Proof.
  intros Hfrac Ha Hj. unfold b, b_weight. rewrite Hfrac.
  rewrite py_pow_pos by (apply IZR_lt; lia).
  rewrite py_pow_nonneg by (try lra; apply IZR_le; lia).
  cbn [bind py_sub py_mul py_binop]. Zcases.
Qed.

Lemma fill_a_ok (gamma : R -> R) (self : roughHeston) :
  frac self = PyFloat (float_pow (dt self) (alpha self) / gamma (alpha self + 2)) ->
  0 <= alpha self -> (0 <= n self)%Z ->
  exists m, fill_a self = Ok (set_a_ m self) /\
    mat_is (n self + 1) (n self + 1) (a_weight gamma (dt self) (alpha self)) m.
Proof.
  intros Hfrac Ha Hn. unfold fill_a.
  destruct (np_zeros2_is (n self + 1) (n self + 1)) as (m0 & -> & Hm0); [lia..|].
  cbn [bind].
  destruct (fill_loops a_ set_a_ a (a_weight gamma (dt self) (alpha self))
              (fun k => (k + 1)%Z) (n self + 1) (n self + 1) (n self + 1) self m0)
    as (m & Hrun & Hm); try assumption; try (intros; lia).
  - reflexivity.
  - reflexivity.
  - intros m j k Hk Hj. apply (a_value gamma (set_a_ m self)); cbn; (assumption || lia).
  - exists m. split; [exact Hrun|].
    eapply mat_is_ext; [|exact Hm].
    intros j k Hj Hk. cbn beta. unfold a_weight. Zcases.
Qed.

Lemma fill_b_ok (gamma : R -> R) (self : roughHeston) :
  frac2 self = PyFloat (float_pow (dt self) (alpha self) / gamma (alpha self + 1)) ->
  0 <= alpha self -> (0 <= n self)%Z ->
  exists m, fill_b self = Ok (set_b_ m self) /\
    mat_is (n self) (n self + 1) (b_weight gamma (dt self) (alpha self)) m.
Proof.
  intros Hfrac Ha Hn. unfold fill_b.
  destruct (np_zeros2_is (n self) (n self + 1)) as (m0 & -> & Hm0); [lia..|].
  cbn [bind].
  destruct (fill_loops b_ set_b_ b (b_weight gamma (dt self) (alpha self))
              (fun k => k) (n self) (n self + 1) (n self + 1) self m0)
    as (m & Hrun & Hm); try assumption; try (intros; lia).
  - reflexivity.
  - reflexivity.
  - intros m j k Hk Hj. apply (b_value gamma (set_b_ m self)); cbn; (assumption || lia).
  - exists m. split; [exact Hrun|].
    eapply mat_is_ext; [|exact Hm].
    intros j k Hj Hk. cbn beta. unfold b_weight. Zcases.
Qed.

Lemma linspace_grid (T0 : R) (nb : Z) :
  (1 <= nb)%Z ->
  linspace 0 T0 (nb + 1) =
    Ok (map (fun i => IZR i * (T0 / IZR nb)) (py_range 0 (nb + 1))).
Proof.
  intros Hnb. unfold linspace.
  destruct (Z.ltb_spec (nb + 1) 0); [lia|].
  destruct (Z.ltb_spec 0 (nb + 1 - 1)); [|lia].
  f_equal. replace (nb + 1 - 1)%Z with nb by lia.
  assert (HnbR : IZR nb <> 0) by (apply not_0_IZR; lia).
  apply list_eq. intros i.
  destruct (decide (i = Z.to_nat nb)) as [->|Hi].
  - rewrite list_lookup_insert_eq
      by (rewrite length_map, py_range_length; lia).
    rewrite list_lookup_fmap, py_range_lookup by lia. cbn [fmap option_fmap option_map].
    f_equal. rewrite Z.add_0_l, Z2Nat.id by lia. field. exact HnbR.
  - rewrite list_lookup_insert_ne by lia.
    rewrite !list_lookup_fmap. destruct (py_range 0 (nb + 1) !! i); cbn; [|reflexivity].
    f_equal. unfold Rminus. rewrite Ropp_0, !Rplus_0_r. reflexivity.
Qed.

Lemma dict_get_param (p : gmap string R) (key : string) :
  is_Some (p !! key) -> dict_get p key = Ok (param p key) /\ p !! key = Some (param p key).
Proof. intros [v Hv]. unfold dict_get, param. rewrite Hv. now split. Qed.

(** Construction succeeds for at least one time step, a non-negative
    horizon and a non-negative [alpha], and leaves the object as [built]
    describes. *)
Lemma init_ok (gamma : R -> R) (nb : Z) (p : gmap string R) (T0 : R) :
  (1 <= nb)%Z -> 0 <= T0 -> complete p -> 0 <= param p "alpha" ->
  exists self, init gamma nb p T0 = Ok self /\ built gamma nb p T0 self.
Proof.
  intros Hnb HT Hp Ha. unfold init, py_truediv.
  destruct (Z.eqb_spec nb 0) as [?|_]; [lia|]. cbn [bind].
  rewrite linspace_grid by exact Hnb. cbn [bind].
  unfold complete, param_keys in Hp.
  repeat match goal with
  | H : Forall _ (_ :: _) |- _ => apply Forall_cons in H; destruct H as [?H H]
  end.
  repeat match goal with
  | H : is_Some (p !! ?key) |- _ =>
      destruct (dict_get_param p key H) as [-> ?]; clear H; cbn [bind]
  end.
  assert (Hdt : 0 <= T0 / IZR nb).
  { apply Rmult_le_pos; [exact HT|]. left. apply Rinv_0_lt_compat, IZR_lt. lia. }
  rewrite py_pow_nonneg by assumption. cbn [bind np_div py_binop].
  match goal with |- context [fill_a ?s] =>
    destruct (fill_a_ok gamma s) as (ma & -> & Hma); cbn; try (reflexivity || assumption || lia)
  end.
  cbn [bind].
  match goal with |- context [fill_b ?s] =>
    destruct (fill_b_ok gamma s) as (mb & -> & Hmb); cbn; try (reflexivity || assumption || lia)
  end.
  eexists. split; [reflexivity|].
  constructor; cbn; try (reflexivity || assumption).
Qed.

Lemma notebook_params_complete : complete notebook_params.
Proof. repeat constructor; eexists; reflexivity. Qed.

Lemma notebook_alpha : param notebook_params "alpha" = 0.6.
Proof. reflexivity. Qed.

Lemma built_param_alpha (gamma : R -> R) (nb : Z) (p : gmap string R) (T0 : R)
    (self : roughHeston) :
  built gamma nb p T0 self -> alpha self = param p "alpha".
Proof. intros B. unfold param. now rewrite (built_alpha _ _ _ _ _ B). Qed.

(** ** The weight matrices *)

(** C2. For every engine built from [(n, T, alpha)] the matrix [a_] holds
    [C_a * ((k+1-j)^(alpha+1) + (k-1-j)^(alpha+1) - 2 (k-j)^(alpha+1))] at
    [0 < j < k], [C_a * ((k-1)^(alpha+1) - (k-alpha-1) k^alpha)] at [j = 0]
    and [C_a] on the diagonal, for [k >= 1], with
    [C_a = dt^alpha / Gamma(alpha+2)]; the matrix [b_] holds
    [C_b * ((k-j)^alpha - (k-j-1)^alpha)] at [0 <= j < k] with
    [C_b = dt^alpha / Gamma(alpha+1)]; every other entry of the two arrays
    is zero. *)
Theorem weight_matrices_formulas (gamma : R -> R) (nb : Z) (p : gmap string R)
    (T0 : R) :
  (1 <= nb)%Z -> 0 <= T0 -> complete p -> 0 <= param p "alpha" ->
  exists self, init gamma nb p T0 = Ok self /\
    let dt := T0 / IZR nb in
    let alpha := param p "alpha" in
    let C_a := float_pow dt alpha / gamma (alpha + 2) in
    let C_b := float_pow dt alpha / gamma (alpha + 1) in
    (forall j k, (0 < j < k)%Z -> (k <= nb)%Z ->
       mat_get (a_ self) j k =
         Ok (C_a * (float_pow (IZR (k + 1 - j)) (alpha + 1)
                    + float_pow (IZR (k - 1 - j)) (alpha + 1)
                    - 2 * float_pow (IZR (k - j)) (alpha + 1)))) /\
    (forall k, (1 <= k <= nb)%Z ->
       mat_get (a_ self) 0 k =
         Ok (C_a * (float_pow (IZR (k - 1)) (alpha + 1)
                    - (IZR k - alpha - 1) * float_pow (IZR k) alpha))) /\
    (forall k, (1 <= k <= nb)%Z -> mat_get (a_ self) k k = Ok C_a) /\
    (forall j k, (0 <= j < k)%Z -> (k <= nb)%Z ->
       mat_get (b_ self) j k =
         Ok (C_b * (float_pow (IZR (k - j)) alpha
                    - float_pow (IZR (k - j - 1)) alpha))) /\
    (forall j k, (0 <= j <= nb)%Z -> (0 <= k <= nb)%Z -> (k = 0 \/ k < j)%Z ->
       mat_get (a_ self) j k = Ok 0) /\
    (forall j k, (0 <= j < nb)%Z -> (0 <= k <= nb)%Z -> (k <= j)%Z ->
       mat_get (b_ self) j k = Ok 0).
Proof.
  intros Hnb HT Hp Ha.
  destruct (init_ok gamma nb p T0 Hnb HT Hp Ha) as (self & Hinit & B).
  exists self. split; [exact Hinit|]. cbv zeta.
  pose proof (built_a _ _ _ _ _ B) as HA.
  pose proof (built_b _ _ _ _ _ B) as HB.
  rewrite (built_dt _ _ _ _ _ B), (built_param_alpha _ _ _ _ _ B) in HA, HB.
  repeat split.
  - intros j k Hj Hk. rewrite (mat_is_get _ _ _ _ j k HA) by lia.
    unfold a_weight. Zcases.
  - intros k Hk. rewrite (mat_is_get _ _ _ _ 0 k HA) by lia.
    unfold a_weight. Zcases.
  - intros k Hk. rewrite (mat_is_get _ _ _ _ k k HA) by lia.
    unfold a_weight. Zcases.
  - intros j k Hj Hk. rewrite (mat_is_get _ _ _ _ j k HB) by lia.
    unfold b_weight. Zcases.
  - intros j k Hj Hk Hout. rewrite (mat_is_get _ _ _ _ j k HA) by lia.
    unfold a_weight. Zcases.
  - intros j k Hj Hk Hout. rewrite (mat_is_get _ _ _ _ j k HB) by lia.
    unfold b_weight. Zcases.
Qed.

(** The notebook's parameters with two time steps. *)
Lemma weight_matrices_formulas_witness :
  exists self, init stirling_gamma 2 notebook_params 1 = Ok self /\
    mat_get (a_ self) 1 1 = Ok (float_pow (1 / 2) 0.6 / stirling_gamma (0.6 + 2)).
Proof.
  destruct (weight_matrices_formulas stirling_gamma 2 notebook_params 1)
    as (self & Hinit & _ & _ & Hdiag & _).
  - lia.
  - lra.
  - exact notebook_params_complete.
  - rewrite notebook_alpha. lra.
  - exists self. split; [exact Hinit|].
    rewrite (Hdiag 1%Z) by lia. rewrite notebook_alpha. reflexivity.
Defined.

Lemma Rsum_ext (f g : nat -> R) (k : nat) :
  (forall j, (j < k)%nat -> f j = g j) -> Rsum f k = Rsum g k.
Proof.
  intros H. induction k as [|k IH]; [reflexivity|].
  rewrite !Rsum_S, IH, H by (intros; try apply H; lia). reflexivity.
Qed.

(** A telescoping sum of weighted differences. *)
Lemma Rsum_telescope (c : R) (g : Z -> R) (k : Z) (m : nat) :
  Rsum (fun j => c * (g (k - Z.of_nat j)%Z - g (k - Z.of_nat j - 1)%Z)) m
  = c * (g k - g (k - Z.of_nat m)%Z).
Proof.
  induction m as [|m IH].
  - unfold Rsum. cbn [seq map fold_right].
    replace (k - Z.of_nat 0)%Z with k by lia. ring.
  - rewrite Rsum_S, IH.
    replace (k - Z.of_nat (S m))%Z with (k - Z.of_nat m - 1)%Z by lia. ring.
Qed.

(** C8. For every [k >= 1] the diagonal weight [a_{k,k}] is
    [dt^alpha / Gamma(alpha+2)], and the predictor column sum
    [sum_{j<k} b_{j,k}] is the telescoped value [C_b * k^alpha] with
    [C_b = dt^alpha / Gamma(alpha+1)]. *)
Theorem weights_diagonal_and_column_sum (gamma : R -> R) (nb : Z)
    (p : gmap string R) (T0 : R) :
  (1 <= nb)%Z -> 0 <= T0 -> complete p -> 0 < param p "alpha" ->
  exists self, init gamma nb p T0 = Ok self /\
    let dt := T0 / IZR nb in
    let alpha := param p "alpha" in
    forall k, (1 <= k <= nb)%Z ->
      mat_get (a_ self) k k = Ok (float_pow dt alpha / gamma (alpha + 2)) /\
      Rsum (fun j => mat_at (b_ self) j (Z.to_nat k)) (Z.to_nat k)
      = float_pow dt alpha / gamma (alpha + 1) * float_pow (IZR k) alpha.
Proof.
  intros Hnb HT Hp Ha.
  destruct (init_ok gamma nb p T0 Hnb HT Hp) as (self & Hinit & B); [lra|].
  exists self. split; [exact Hinit|]. cbv zeta. intros k Hk.
  pose proof (built_a _ _ _ _ _ B) as HA.
  pose proof (built_b _ _ _ _ _ B) as HB.
  rewrite (built_dt _ _ _ _ _ B), (built_param_alpha _ _ _ _ _ B) in HA, HB.
  split.
  - rewrite (mat_is_get _ _ _ _ k k HA) by lia. unfold a_weight. Zcases.
  - rewrite (Rsum_ext _ (fun j =>
      float_pow (T0 / IZR nb) (param p "alpha") / gamma (param p "alpha" + 1)
      * (float_pow (IZR (k - Z.of_nat j)) (param p "alpha")
         - float_pow (IZR (k - Z.of_nat j - 1)) (param p "alpha")))).
    + rewrite (Rsum_telescope _ (fun i => float_pow (IZR i) (param p "alpha"))).
      replace (k - Z.of_nat (Z.to_nat k))%Z with 0%Z by lia.
      rewrite float_pow_0_l by lra. ring.
    + intros j Hj.
      replace j with (Z.to_nat (Z.of_nat j)) at 1 by lia.
      rewrite (mat_is_at _ _ _ _ (Z.of_nat j) k HB) by lia.
      unfold b_weight. Zcases.
Qed.

Lemma weights_diagonal_and_column_sum_witness :
  exists self, init stirling_gamma 2 notebook_params 1 = Ok self /\
    Rsum (fun j => mat_at (b_ self) j 2) 2
    = float_pow (1 / 2) 0.6 / stirling_gamma (0.6 + 1) * float_pow 2 0.6.
Proof.
  destruct (weights_diagonal_and_column_sum stirling_gamma 2 notebook_params 1)
    as (self & Hinit & Hk).
  - lia.
  - lra.
  - exact notebook_params_complete.
  - rewrite notebook_alpha. lra.
  - exists self. split; [exact Hinit|].
    destruct (Hk 2%Z) as [_ Hsum]; [lia|].
    rewrite notebook_alpha in Hsum. exact Hsum.
Defined.

(** ** The fractional Riccati solver *)

Lemma vec_at_lookup (h : list C) (i : nat) :
  (i < length h)%nat -> h !! i = Some (vec_at h i).
Proof.
  intros Hi. unfold vec_at.
  destruct (lookup_lt_is_Some_2 h i Hi) as [z ->]. reflexivity.
Qed.

Lemma vec_at_insert_ne (h : list C) (i j : nat) (z : C) :
  i <> j -> vec_at (<[i := z]> h) j = vec_at h j.
Proof. intros Hij. unfold vec_at. now rewrite list_lookup_insert_ne. Qed.

(** The loop shared by [h_P] and [sum_a]: a left-to-right accumulation
    that equals the weighted sum over the column. *)
Lemma scheme_sum_ok (self : roughHeston) (m : matrix) (r c : Z)
    (fM : Z -> Z -> R) (a : C) (k : Z) (h : list C) :
  mat_is r c fM m -> h_hat self = Some h ->
  (0 <= k <= r)%Z -> (k < c)%Z -> (k <= Z.of_nat (length h))%Z ->
  for_in (py_range 0 k) (fun j res =>
    let! w := mat_get m j k in
    let! h := get_h_hat self in
    let! hj := np_get h j in
    Ok (res + RtoC w * F self a hj)%C) (RtoC 0)
  = Ok (Csum (fun j => RtoC (mat_at m j (Z.to_nat k)) * F self a (vec_at h j))%C
             (Z.to_nat k)).
Proof.
  intros Hm Hh Hk Hc Hlen.
  set (f := fun j : nat => (RtoC (mat_at m j (Z.to_nat k)) * F self a (vec_at h j))%C).
  destruct (for_in_range_inv (fun j res => res = Csum f (Z.to_nat j))
    (fun j res =>
      let! w := mat_get m j k in
      let! h := get_h_hat self in
      let! hj := np_get h j in
      Ok (res + RtoC w * F self a hj)%C) 0 k (RtoC 0)) as (res & Hrun & ->).
  - lia.
  - reflexivity.
  - intros j res Hj ->.
    rewrite (mat_is_get r c fM m j k Hm) by lia. cbn [bind].
    unfold get_h_hat. rewrite Hh. cbn [bind].
    rewrite (np_get_ok h j (vec_at h (Z.to_nat j))) by (try apply vec_at_lookup; lia).
    cbn [bind]. eexists. split; [reflexivity|].
    replace (Z.to_nat (j + 1)) with (S (Z.to_nat j)) by lia.
    rewrite Csum_S. f_equal. unfold f.
    rewrite (mat_is_at r c fM m j k Hm) by lia. reflexivity.
  - exact Hrun.
Qed.

Lemma scheme_step_prefix (A B : matrix) (Fa : C -> C) (h h' : list C) (k : nat) :
  (forall j, (j < k)%nat -> vec_at h' j = vec_at h j) ->
  scheme_step A B Fa h' k = scheme_step A B Fa h k.
Proof.
  intros Hpre. unfold scheme_step.
  rewrite (Csum_ext (fun j => (RtoC (mat_at B j k) * Fa (vec_at h' j))%C)
                    (fun j => (RtoC (mat_at B j k) * Fa (vec_at h j))%C))
    by (intros j Hj; now rewrite Hpre).
  rewrite (Csum_ext (fun j => (RtoC (mat_at A j k) * Fa (vec_at h' j))%C)
                    (fun j => (RtoC (mat_at A j k) * Fa (vec_at h j))%C))
    by (intros j Hj; now rewrite Hpre).
  reflexivity.
Qed.

(** [fill_h] on an object whose weight arrays have their shapes: it
    returns, touches only [h_hat], and the new array satisfies the
    recursion. *)
Lemma fill_h_ok (self : roughHeston) (fA fB : Z -> Z -> R) (a : C) :
  (0 <= n self)%Z ->
  mat_is (n self + 1) (n self + 1) fA (a_ self) ->
  mat_is (n self) (n self + 1) fB (b_ self) ->
  exists h, fill_h self a = Ok (set_h_hat h self) /\
    length h = Z.to_nat (n self + 1) /\
    h !! 0%nat = Some (RtoC 0) /\
    forall k, (1 <= k <= Z.to_nat (n self))%nat ->
      h !! k = Some (scheme_step (a_ self) (b_ self) (F self a) h k).
Proof.
  intros Hn HA HB. unfold fill_h, np_zeros_complex.
  destruct (Z.ltb_spec (n self + 1) 0); [lia|]. cbn [bind].
  set (h0 := replicate (Z.to_nat (n self + 1)) (RtoC 0)).
  set (body := fun (k : Z) (self : roughHeston) =>
    let! hP := h_P self a k in
    let! sa := sum_a self a k in
    let! akk := mat_get (a_ self) k k in
    let! h := get_h_hat self in
    let! h' := np_set h k (sa + RtoC akk * F self a hP)%C in
    Ok (set_h_hat h' self)).
  change (n (set_h_hat h0 self)) with (n self).
  destruct (for_in_range_inv (fun k s =>
      exists h, s = set_h_hat h self /\ length h = Z.to_nat (n self + 1) /\
        h !! 0%nat = Some (RtoC 0) /\
        forall k', (1 <= k' < Z.to_nat k)%nat ->
          h !! k' = Some (scheme_step (a_ self) (b_ self) (F self a) h k'))
    body 1 (n self + 1) (set_h_hat h0 self)) as (s & Hrun & h & -> & Hlen & H0 & Hrec).
  - lia.
  - exists h0. split; [reflexivity|]. split; [apply length_replicate|].
    split; [apply lookup_replicate_2; lia|]. intros k' Hk'. lia.
  - intros k s Hk (h & -> & Hlen & H0 & Hrec). unfold body.
    unfold h_P. change (b_ (set_h_hat h self)) with (b_ self).
    rewrite (scheme_sum_ok (set_h_hat h self) (b_ self) _ _ fB a k h HB)
      by (cbn; (reflexivity || lia)).
    cbn [bind]. unfold sum_a. change (a_ (set_h_hat h self)) with (a_ self).
    rewrite (scheme_sum_ok (set_h_hat h self) (a_ self) _ _ fA a k h HA)
      by (cbn; (reflexivity || lia)).
    cbn [bind]. rewrite (mat_is_get _ _ fA (a_ self) k k HA) by lia.
    cbn [bind get_h_hat h_hat set_h_hat].
    rewrite np_set_ok by lia. cbn [bind].
    eexists. split; [reflexivity|].
    eexists. split; [reflexivity|].
    split; [now rewrite length_insert|].
    split; [rewrite list_lookup_insert_ne by lia; exact H0|].
    intros k' Hk'.
    match goal with |- context [<[Z.to_nat k := ?z]> h] => set (v := z) end.
    assert (Hpre : forall k0, (k0 <= Z.to_nat k)%nat ->
      scheme_step (a_ self) (b_ self) (F self a) (<[Z.to_nat k := v]> h) k0
      = scheme_step (a_ self) (b_ self) (F self a) h k0).
    { intros k0 Hk0. apply scheme_step_prefix. intros j Hj.
      apply vec_at_insert_ne. lia. }
    rewrite Hpre by lia.
    destruct (decide (k' = Z.to_nat k)) as [->|Hne].
    + rewrite list_lookup_insert_eq by lia. f_equal.
      unfold scheme_step, v. rewrite (mat_is_at _ _ fA (a_ self) k k HA) by lia.
      reflexivity.
    + rewrite list_lookup_insert_ne by lia. apply Hrec. lia.
  - exists h. split; [exact Hrun|]. split; [exact Hlen|]. split; [exact H0|].
    intros k Hk. apply Hrec. lia.
Qed.

Lemma same_but_h_hat_fields (self s : roughHeston) :
  same_but_h_hat self s ->
  a_ s = a_ self /\ b_ s = b_ self /\ n s = n self /\ nu s = nu self /\
  forall h, set_h_hat h s = set_h_hat h self.
Proof. intros [->|[h ->]]; repeat split. Qed.

(** [fill_h] on a built engine, whatever [h_hat] earlier calls left: it
    returns, touches only [h_hat], and the new array satisfies the
    recursion. *)
Lemma fill_h_built (gamma : R -> R) (nb : Z) (p : gmap string R) (T0 : R)
    (self s : roughHeston) (a : C) :
  (1 <= nb)%Z -> built gamma nb p T0 self -> same_but_h_hat self s ->
  exists h, fill_h s a = Ok (set_h_hat h self) /\
    length h = Z.to_nat (nb + 1) /\
    h !! 0%nat = Some (RtoC 0) /\
    forall k, (1 <= k <= Z.to_nat nb)%nat ->
      h !! k = Some (scheme_step (a_ self) (b_ self) (F self a) h k).
Proof.
  intros Hnb B Hs.
  destruct (same_but_h_hat_fields self s Hs) as (HA & HB & Hn & _ & Hset).
  pose proof (built_a _ _ _ _ _ B) as HmA.
  pose proof (built_b _ _ _ _ _ B) as HmB.
  pose proof (built_n _ _ _ _ _ B) as Hnb'. subst nb.
  rewrite <- Hn, <- HA in HmA. rewrite <- Hn, <- HB in HmB.
  destruct (fill_h_ok s _ _ a ltac:(lia) HmA HmB) as (h & Hrun & Hlen & H0 & Hrec).
  exists h. rewrite Hrun, Hset, <- Hn. repeat split; try assumption.
  intros k Hk. rewrite (Hrec k) by lia. rewrite HA, HB.
  destruct Hs as [->|[h' ->]]; reflexivity.
Qed.

(** C1. For every complex Fourier argument [a] and every engine with [n]
    time steps, [fill_h] produces [h_hat] of length [n+1] such that, for
    [k = 1..n], with [h_P(k) = sum_{j<k} b_{j,k} F(a, h_hat[j])] and
    [sum_a(k) = sum_{j<k} a_{j,k} F(a, h_hat[j])],
    [h_hat[k] = sum_a(k) + a_{k,k} F(a, h_P(k))]; the value of step [k] is
    the same for any array that agrees with [h_hat] below [k]. *)
Theorem fill_h_recursion (gamma : R -> R) (nb : Z) (p : gmap string R) (T0 : R)
    (a : C) :
  (1 <= nb)%Z -> 0 <= T0 -> complete p -> 0 <= param p "alpha" ->
  exists self h,
    init gamma nb p T0 = Ok self /\
    fill_h self a = Ok (set_h_hat h self) /\
    length h = Z.to_nat (nb + 1) /\
    forall k, (1 <= k <= Z.to_nat nb)%nat ->
      let hP := Csum (fun j => RtoC (mat_at (b_ self) j k) * F self a (vec_at h j))%C k in
      let sA := Csum (fun j => RtoC (mat_at (a_ self) j k) * F self a (vec_at h j))%C k in
      h !! k = Some (sA + RtoC (mat_at (a_ self) k k) * F self a hP)%C /\
      forall h', (forall j, (j < k)%nat -> vec_at h' j = vec_at h j) ->
        scheme_step (a_ self) (b_ self) (F self a) h' k
        = (sA + RtoC (mat_at (a_ self) k k) * F self a hP)%C.
Proof.
  intros Hnb HT Hp Ha.
  destruct (init_ok gamma nb p T0 Hnb HT Hp Ha) as (self & Hinit & B).
  destruct (fill_h_built gamma nb p T0 self self a Hnb B ltac:(now left))
    as (h & Hrun & Hlen & _ & Hrec).
  exists self, h. repeat split; try assumption.
  - apply (Hrec k). assumption.
  - intros h' Hpre. now apply scheme_step_prefix.
Qed.

Lemma fill_h_recursion_witness :
  exists self h,
    init stirling_gamma 2 notebook_params 1 = Ok self /\
    fill_h self (mkC 1 (- 0.5)) = Ok (set_h_hat h self) /\
    length h = 3%nat /\
    h !! 1%nat =
      Some (RtoC (mat_at (a_ self) 0 1) * F self (mkC 1 (- 0.5)) (vec_at h 0)
            + RtoC 0
            + RtoC (mat_at (a_ self) 1 1)
              * F self (mkC 1 (- 0.5))
                  (RtoC (mat_at (b_ self) 0 1) * F self (mkC 1 (- 0.5)) (vec_at h 0)
                   + RtoC 0))%C.
Proof.
  destruct (fill_h_recursion stirling_gamma 2 notebook_params 1 (mkC 1 (- 0.5)))
    as (self & h & Hinit & Hrun & Hlen & Hrec).
  - lia.
  - lra.
  - exact notebook_params_complete.
  - rewrite notebook_alpha. lra.
  - exists self, h. repeat split; try assumption.
    destruct (Hrec 1%nat) as [H1 _]; [lia|]. exact H1.
Defined.

(** C7. For every complex Fourier argument [a] and every valid parameter
    set, the array produced by the solver has [h_hat[0] == 0]. *)
Theorem fill_h_initial_value (gamma : R -> R) (nb : Z) (p : gmap string R)
    (T0 : R) (a : C) :
  (1 <= nb)%Z -> 0 <= T0 -> complete p -> 0 <= param p "alpha" ->
  exists self self' h,
    init gamma nb p T0 = Ok self /\
    fill_h self a = Ok self' /\
    h_hat self' = Some h /\
    np_get h 0 = Ok (RtoC 0).
Proof.
  intros Hnb HT Hp Ha.
  destruct (init_ok gamma nb p T0 Hnb HT Hp Ha) as (self & Hinit & B).
  destruct (fill_h_built gamma nb p T0 self self a Hnb B ltac:(now left))
    as (h & Hrun & Hlen & H0 & _).
  exists self, (set_h_hat h self), h.
  repeat split; try assumption.
  apply np_get_ok; [lia | exact H0].
Qed.

Lemma fill_h_initial_value_witness :
  exists self self' h,
    init stirling_gamma 100 notebook_params 1 = Ok self /\
    fill_h self (mkC 1 (- 0.5)) = Ok self' /\
    h_hat self' = Some h /\
    np_get h 0 = Ok (RtoC 0).
Proof.
  apply (fill_h_initial_value stirling_gamma 100 notebook_params 1 (mkC 1 (- 0.5))).
  - lia.
  - lra.
  - exact notebook_params_complete.
  - rewrite notebook_alpha. lra.
Defined.

(** ** The Riccati kernel *)

(** C3. [F] is the function
    [F(a, x) = -1/2 (a^2 + i a) - (kappa - i a rho nu) x + 1/2 nu^2 x^2] of
    its two complex arguments and of the parameters [kappa], [rho], [nu]
    alone: it returns no new object state, and its value does not change
    with the mutable attribute [h_hat]. *)
Theorem F_is_riccati_kernel (self : roughHeston) (a x : C) :
  F self a x = riccati_kernel (kappa self) (rho self) (nu self) a x /\
  forall h, F (set_h_hat h self) a x = F self a x.
Proof.
  split; [|reflexivity].
  destruct a as [ar ai], x as [xr xi]. unfold F, riccati_kernel.
  replace (- 0.5) with (- (1 / 2)) by lra. replace 0.5 with (1 / 2) by lra.
  apply C_ext; cbn [Re Im Cadd Csub Cmul Copp RtoC Ci]; field.
Qed.

(** ** The characteristic function *)

Lemma list_is_map_seq {A : Type} (l : list A) (f : nat -> A) (m : nat) :
  length l = m -> (forall i, (i < m)%nat -> l !! i = Some (f i)) ->
  l = map f (seq 0 m).
Proof.
  intros Hlen Hl. apply list_eq. intros i.
  rewrite list_lookup_fmap.
  destruct (decide (i < m)%nat) as [Hi|Hi].
  - rewrite Hl, lookup_seq_lt by exact Hi. reflexivity.
  - rewrite lookup_seq_ge by lia. apply lookup_ge_None. lia.
Qed.

Lemma py_range_0 (hi : Z) : py_range 0 hi = map Z.of_nat (seq 0 (Z.to_nat hi)).
Proof.
  unfold py_range. replace (hi - 0)%Z with hi by lia.
  apply map_ext. intros i. lia.
Qed.

Lemma np_diff_length (x : list R) : length (np_diff x) = pred (length x).
Proof.
  induction x as [|x0 [|x1 tl] IH]; cbn [np_diff length pred]; try reflexivity.
  cbn [np_diff length pred] in IH. now rewrite IH.
Qed.

Lemma np_diff_lookup (x : list R) (i : nat) (u v : R) :
  x !! i = Some u -> x !! S i = Some v -> np_diff x !! i = Some (v - u).
Proof.
  revert i. induction x as [|x0 [|x1 tl] IH]; intros i Hu Hv.
  - discriminate.
  - destruct i; discriminate.
  - destruct i as [|i].
    + cbn in Hu, Hv. injection Hu as ->. injection Hv as ->. reflexivity.
    + cbn [np_diff]. change ((x1 - x0 :: np_diff (x1 :: tl)) !! S i)
        with (np_diff (x1 :: tl) !! i). apply IH; assumption.
Qed.

Lemma removelast_lookup {A : Type} (l : list A) (i : nat) :
  (S i < length l)%nat -> removelast l !! i = l !! i.
Proof.
  intros Hi. rewrite removelast_firstn_len. apply lookup_take_lt. lia.
Qed.

(** [trapz] on two arrays of [m + 1] samples. *)
Lemma trapz_ok (y : list C) (x : list R) (xs : nat -> R) (m : nat) :
  length y = S m -> length x = S m ->
  (forall i, (i <= m)%nat -> x !! i = Some (xs i)) ->
  trapz y x =
    Ok (Csum (fun i => RtoC (xs (S i) - xs i) * (vec_at y (S i) + vec_at y i)
                       / RtoC 2)%C m).
Proof.
  intros Hy Hx Hxs. unfold trapz.
  assert (Hd : length (np_diff x) = m) by (rewrite np_diff_length; lia).
  assert (Hs : length (zip_with Cadd (tail y) (removelast y)) = m).
  { rewrite length_zip_with, removelast_firstn_len, length_take.
    destruct y; cbn [tail length] in *; lia. }
  unfold np_broadcast. rewrite Hd, Hs, Nat.eqb_refl. cbn [bind]. f_equal.
  rewrite <- np_sum_Csum. f_equal.
  apply list_is_map_seq.
  - rewrite length_map, length_zip. lia.
  - intros i Hi. rewrite list_lookup_fmap.
    assert (Hzip : zip (np_diff x) (zip_with Cadd (tail y) (removelast y)) !! i
                   = Some (xs (S i) - xs i, (vec_at y (S i) + vec_at y i)%C)).
    { apply lookup_zip_Some. split.
      - apply np_diff_lookup; apply Hxs; lia.
      - rewrite lookup_zip_with, lookup_tail, removelast_lookup by lia.
        rewrite !vec_at_lookup by lia. reflexivity. }
    rewrite Hzip. reflexivity.
Qed.

Lemma grid_lookup (gamma : R -> R) (nb : Z) (p : gmap string R) (T0 : R)
    (self : roughHeston) (i : nat) :
  built gamma nb p T0 self -> (Z.of_nat i <= nb)%Z ->
  time_grid self !! i = Some (INR i * (T0 / IZR nb)).
Proof.
  intros B Hi. rewrite (built_time_grid _ _ _ _ _ B).
  rewrite list_lookup_fmap, py_range_lookup by lia.
  cbn [fmap option_fmap option_map]. rewrite Z.add_0_l, <- INR_IZR_INZ. reflexivity.
Qed.

Lemma grid_length (gamma : R -> R) (nb : Z) (p : gmap string R) (T0 : R)
    (self : roughHeston) :
  built gamma nb p T0 self -> length (time_grid self) = Z.to_nat (nb + 1).
Proof.
  intros B. rewrite (built_time_grid _ _ _ _ _ B), length_map, py_range_length.
  f_equal. lia.
Qed.

(** [rHeston_char_function] on a built engine, in the form the code
    computes it. *)
Lemma rHeston_char_function_run (gamma : R -> R) (nb : Z) (p : gmap string R)
    (T0 : R) (self s : roughHeston) (a : C) :
  (1 <= nb)%Z -> built gamma nb p T0 self -> same_but_h_hat self s ->
  exists h, fill_h s a = Ok (set_h_hat h self) /\
    rHeston_char_function s a =
      Ok (Cexp (RtoC (kappa self * theta self)
                * Csum (fun i =>
                    RtoC (INR (S i) * (T0 / IZR nb) - INR i * (T0 / IZR nb))
                    * (vec_at h (S i) + vec_at h i) / RtoC 2) (Z.to_nat nb)
                + RtoC (V0 self)
                  * (RtoC (frac_bar self)
                     * Csum (fun i =>
                         RtoC (float_pow (T0 - INR i * (T0 / IZR nb)) (1 - alpha self)
                               - float_pow (T0 - INR (S i) * (T0 / IZR nb))
                                   (1 - alpha self))
                         * vec_at h i) (Z.to_nat nb)
                     / RtoC (1 - alpha self)))%C,
          set_h_hat h self).
Proof.
  intros Hnb B Hs.
  destruct (fill_h_built gamma nb p T0 self s a Hnb B Hs) as (h & Hrun & Hlen & _).
  exists h. split; [exact Hrun|].
  unfold rHeston_char_function. rewrite Hrun.
  cbn [bind get_h_hat h_hat set_h_hat time_grid n T alpha frac_bar kappa theta V0].
  rewrite (trapz_ok h (time_grid self) (fun i => INR i * (T0 / IZR nb)) (Z.to_nat nb)).
  2: { rewrite Hlen. lia. }
  2: { rewrite (grid_length _ _ _ _ _ B). lia. }
  2: { intros i Hi. apply (grid_lookup gamma nb p T0); [exact B | lia]. }
  cbn [bind]. rewrite (built_n _ _ _ _ _ B), (built_T _ _ _ _ _ B).
  rewrite (map_in_range _ (fun i =>
      (RtoC (float_pow (T0 - INR (Z.to_nat i) * (T0 / IZR nb)) (1 - alpha self)
             - float_pow (T0 - INR (S (Z.to_nat i)) * (T0 / IZR nb)) (1 - alpha self))
       * vec_at h (Z.to_nat i))%C) nb (Z.to_nat nb)); [|lia|].
  2: { intros i Hi.
       rewrite (np_get_ok (time_grid self) i (INR (Z.to_nat i) * (T0 / IZR nb)))
         by (try apply (grid_lookup gamma nb p T0 self _ B); lia).
       cbn [bind].
       rewrite (np_get_ok (time_grid self) (i + 1) (INR (S (Z.to_nat i)) * (T0 / IZR nb))).
       2: lia.
       2: { replace (Z.to_nat (i + 1)) with (S (Z.to_nat i)) by lia.
            apply (grid_lookup gamma nb p T0 self _ B). lia. }
       cbn [bind].
       rewrite (np_get_ok h i (vec_at h (Z.to_nat i)))
         by (try apply vec_at_lookup; lia).
       reflexivity. }
  cbn [bind]. rewrite py_range_0, map_map, np_sum_Csum.
  match goal with |- context [Csum ?f (Z.to_nat nb)] =>
    lazymatch f with context [Z.of_nat] =>
      rewrite (Csum_ext f (fun i =>
        (RtoC (float_pow (T0 - INR i * (T0 / IZR nb)) (1 - alpha self)
               - float_pow (T0 - INR (S i) * (T0 / IZR nb)) (1 - alpha self))
         * vec_at h i)%C)) by (intros i Hi; cbv beta; now rewrite Nat2Z.id)
    end
  end.
  reflexivity.
Qed.

(** The same value in the specification's form, for [alpha <> 1]. *)
Lemma rHeston_char_function_ok (gamma : R -> R) (nb : Z) (p : gmap string R)
    (T0 : R) (self : roughHeston) (h : list C) (a : C) :
  (1 <= nb)%Z -> built gamma nb p T0 self ->
  fill_h self a = Ok (set_h_hat h self) -> alpha self <> 1 ->
  rHeston_char_function self a =
    Ok (Cexp (RtoC (kappa self * theta self)
              * trapezoid_integral (T0 / IZR nb) h (Z.to_nat nb)
              + RtoC (V0 self)
                * fractional_integral gamma T0 (alpha self) (T0 / IZR nb) h
                    (Z.to_nat nb))%C,
        set_h_hat h self).
Proof.
  intros Hnb B Hrun Ha.
  destruct (rHeston_char_function_run gamma nb p T0 self self a Hnb B
              ltac:(now left)) as (h' & Hrun' & ->).
  rewrite Hrun in Hrun'. injection Hrun' as <-.
  do 4 f_equal.
  - (* the trapezoidal sum *)
    f_equal. unfold trapezoid_integral. apply Csum_ext. intros i Hi.
    replace (INR (S i) * (T0 / IZR nb) - INR i * (T0 / IZR nb)) with (T0 / IZR nb)
      by (rewrite S_INR; ring).
    generalize (vec_at h i), (vec_at h (S i)), (T0 / IZR nb).
    intros [xr xi] [yr yi] d. apply C_ext;
      cbn [Re Im Cadd Csub Cmul Cdiv Copp RtoC]; unfold Cnorm2;
      cbn [Re Im RtoC]; field.
  - (* the fractional sum *)
    f_equal. unfold fractional_integral.
    rewrite (built_frac_bar _ _ _ _ _ B).
    match goal with |- context [Csum ?f ?m] => generalize (Csum f m) end.
    generalize (1 / gamma (1 - alpha self)).
    intros fb [sr si]. apply C_ext;
      cbn [Re Im Cadd Csub Cmul Cdiv Copp RtoC]; unfold Cnorm2;
      cbn [Re Im RtoC]; field; lra.
Qed.

Lemma built_params (gamma : R -> R) (nb : Z) (p : gmap string R) (T0 : R)
    (self : roughHeston) :
  built gamma nb p T0 self ->
  kappa self = param p "kappa" /\ theta self = param p "theta" /\
  V0 self = param p "V0" /\ S0 self = param p "S0" /\
  nu self = param p "nu" /\ rho self = param p "rho".
Proof.
  intros B. unfold param.
  rewrite (built_kappa _ _ _ _ _ B), (built_theta _ _ _ _ _ B),
    (built_V0 _ _ _ _ _ B), (built_S0 _ _ _ _ _ B), (built_nu _ _ _ _ _ B),
    (built_rho _ _ _ _ _ B).
  repeat split.
Qed.

(** C4. For every complex Fourier argument [a] the assembler returns
    [exp(kappa * theta * integral + V0 * frac_integral)], where [integral]
    is the trapezoidal-rule integral of [h_hat] over the [n + 1] equally
    spaced grid points and [frac_integral] is
    [1/Gamma(1-alpha) * 1/(1-alpha)
       * sum_{i<n} ((T - t_i)^(1-alpha) - (T - t_{i+1})^(1-alpha)) * h_hat[i]],
    with the left-endpoint value [h_hat[i]] on each interval; [h_hat] is the
    array the solver produces for [a]. *)
Theorem rHeston_char_function_formula (gamma : R -> R) (nb : Z)
    (p : gmap string R) (T0 : R) (a : C) :
  (1 <= nb)%Z -> 0 <= T0 -> complete p ->
  0 <= param p "alpha" -> param p "alpha" < 1 ->
  exists self h,
    init gamma nb p T0 = Ok self /\
    fill_h self a = Ok (set_h_hat h self) /\
    let dt := T0 / IZR nb in
    let integral := trapezoid_integral dt h (Z.to_nat nb) in
    let frac_integral :=
      fractional_integral gamma T0 (param p "alpha") dt h (Z.to_nat nb) in
    rHeston_char_function self a =
      Ok (Cexp (RtoC (param p "kappa" * param p "theta") * integral
                + RtoC (param p "V0") * frac_integral)%C,
          set_h_hat h self).
Proof.
  intros Hnb HT Hp Ha Ha1.
  destruct (init_ok gamma nb p T0 Hnb HT Hp Ha) as (self & Hinit & B).
  destruct (fill_h_built gamma nb p T0 self self a Hnb B ltac:(now left))
    as (h & Hrun & _).
  exists self, h. split; [exact Hinit|]. split; [exact Hrun|]. cbv zeta.
  destruct (built_params _ _ _ _ _ B) as (<- & <- & <- & _).
  rewrite <- (built_param_alpha _ _ _ _ _ B) in *.
  apply (rHeston_char_function_ok gamma nb p T0); try assumption. lra.
Qed.

Lemma rHeston_char_function_formula_witness :
  exists self h v,
    init stirling_gamma 100 notebook_params 1 = Ok self /\
    fill_h self (mkC 1 (- 0.5)) = Ok (set_h_hat h self) /\
    rHeston_char_function self (mkC 1 (- 0.5)) = Ok (v, set_h_hat h self).
Proof.
  destruct (rHeston_char_function_formula stirling_gamma 100 notebook_params 1
              (mkC 1 (- 0.5))) as (self & h & Hinit & Hrun & Hval).
  - lia.
  - lra.
  - exact notebook_params_complete.
  - rewrite notebook_alpha. lra.
  - rewrite notebook_alpha. lra.
  - exists self, h. eexists. split; [exact Hinit|]. split; [exact Hrun|].
    exact Hval.
Defined.

(** ** Frame: the weight matrices are read-only after construction *)

Lemma rHeston_char_function_frame (gamma : R -> R) (nb : Z) (p : gmap string R)
    (T0 : R) (self s : roughHeston) (a : C) :
  (1 <= nb)%Z -> built gamma nb p T0 self -> same_but_h_hat self s ->
  exists v h, rHeston_char_function s a = Ok (v, set_h_hat h self).
Proof.
  intros Hnb B Hs.
  destruct (rHeston_char_function_run gamma nb p T0 self s a Hnb B Hs)
    as (h & _ & ->).
  eexists. exists h. reflexivity.
Qed.

(** [quad] with an integrand that keeps the object within a set of states. *)
Lemma quad_loop_frame {St : Type} (Inv : St -> Prop) (q : quadrature)
    (func : R -> St -> result (R * St)) (lo : R) (hi : bound) :
  (forall u st, Inv st -> exists y st', func u st = Ok (y, st') /\ Inv st') ->
  forall fuel seen st, Inv st ->
    exists res st', quad_loop q func lo hi fuel seen st = Ok (res, st') /\ Inv st'.
Proof.
  intros Hf fuel. induction fuel as [|fuel IH]; intros seen st Hst; cbn [quad_loop].
  - eexists. exists st. split; [reflexivity | exact Hst].
  - destruct (quad_next q lo hi seen) as [u|].
    + destruct (Hf u st Hst) as (y & st1 & -> & Hst1). cbn [bind].
      apply IH. exact Hst1.
    + eexists. exists st. split; [reflexivity | exact Hst].
Qed.

Lemma heston_char_function_ok (self : roughHeston) (u : C) :
  nu self <> 0 -> exists c, heston_char_function self u = Ok c.
Proof.
  intros Hnu. unfold heston_char_function, py_fdiv.
  destruct (Req_dec_T (nu self ^ 2) 0) as [H0|_].
  - exfalso. apply Hnu. apply (Rsqr_0_uniq (nu self)). unfold Rsqr.
    rewrite <- H0. ring.
  - cbn [bind]. eexists. reflexivity.
Qed.

Lemma run_call_frame (gamma : R -> R) (q : quadrature) (nb : Z)
    (p : gmap string R) (T0 : R) (self s : roughHeston) (c : call) :
  (1 <= nb)%Z -> built gamma nb p T0 self -> nu self <> 0 ->
  same_but_h_hat self s ->
  exists s', run_call q s c = Ok s' /\ same_but_h_hat self s'.
Proof.
  intros Hnb B Hnu Hs. destruct c as [a|a|k upLim|k]; cbn [run_call].
  - destruct (fill_h_built gamma nb p T0 self s a Hnb B Hs) as (h & -> & _).
    eexists. split; [reflexivity|]. right. now exists h.
  - destruct (rHeston_char_function_frame gamma nb p T0 self s a Hnb B Hs)
      as (v & h & ->).
    eexists. split; [reflexivity|]. right. now exists h.
  - unfold rHeston_Call, quad.
    match goal with |- context [quad_loop q ?f ?lo ?hi ?fu ?seen s] =>
      assert (Hf : forall u st, same_but_h_hat self st ->
                exists y st', f u st = Ok (y, st') /\ same_but_h_hat self st');
      [| destruct (quad_loop_frame (same_but_h_hat self) q f lo hi Hf fu seen s Hs)
           as (res & s' & -> & Hs')]
    end.
    + intros u st Hst.
      destruct (rHeston_char_function_frame gamma nb p T0 self st
                  (RtoC u - RtoC 0.5 * Ci)%C Hnb B Hst) as (v & h & ->).
      cbn [bind]. eexists. eexists. split; [reflexivity|]. right. now exists h.
    + cbn [bind]. eexists. split; [reflexivity | exact Hs'].
  - unfold heston_Call, quad.
    match goal with |- context [quad_loop q ?f ?lo ?hi ?fu ?seen s] =>
      assert (Hf : forall u st, same_but_h_hat self st ->
                exists y st', f u st = Ok (y, st') /\ same_but_h_hat self st');
      [| destruct (quad_loop_frame (same_but_h_hat self) q f lo hi Hf fu seen s Hs)
           as (res & s' & -> & Hs')]
    end.
    + intros u st Hst.
      destruct (heston_char_function_ok st (RtoC u - RtoC 0.5 * Ci)%C) as (c & ->).
      { destruct (same_but_h_hat_fields self st Hst) as (_ & _ & _ & -> & _).
        exact Hnu. }
      cbn [bind]. eexists. eexists. split; [reflexivity | exact Hst].
    + cbn [bind]. eexists. split; [reflexivity | exact Hs'].
Qed.

(** C9. After construction, any sequence of calls to the solver, the
    assembler or a pricer returns and leaves every entry of the weight
    matrices [a_] and [b_] as construction set it. *)
Theorem weight_matrices_never_mutated (gamma : R -> R) (q : quadrature)
    (nb : Z) (p : gmap string R) (T0 : R) :
  (1 <= nb)%Z -> 0 <= T0 -> complete p -> 0 <= param p "alpha" ->
  param p "nu" <> 0 ->
  exists self, init gamma nb p T0 = Ok self /\
    forall cs : list call,
      exists self', run_calls q self cs = Ok self' /\
        a_ self' = a_ self /\ b_ self' = b_ self.
Proof.
  intros Hnb HT Hp Ha Hnu.
  destruct (init_ok gamma nb p T0 Hnb HT Hp Ha) as (self & Hinit & B).
  exists self. split; [exact Hinit|]. intros cs.
  assert (Hnu' : nu self <> 0).
  { destruct (built_params _ _ _ _ _ B) as (_ & _ & _ & _ & -> & _). exact Hnu. }
  assert (Hgen : forall s, same_but_h_hat self s ->
    exists s', run_calls q s cs = Ok s' /\ same_but_h_hat self s').
  { induction cs as [|c cs IH]; intros s Hs; cbn [run_calls for_in].
    - exists s. split; [reflexivity | exact Hs].
    - destruct (run_call_frame gamma q nb p T0 self s c Hnb B Hnu' Hs)
        as (s1 & -> & Hs1).
      cbn [bind]. apply IH. exact Hs1. }
  destruct (Hgen self) as (s' & Hrun & Hs'); [now left|].
  exists s'. split; [exact Hrun|].
  destruct (same_but_h_hat_fields self s' Hs') as (HA & HB & _). now split.
Qed.

Lemma weight_matrices_never_mutated_witness :
  exists self self',
    init stirling_gamma 100 notebook_params 1 = Ok self /\
    run_calls midpoint_rule self
      [CallRoughPrice (- 0.1) 5; CallHestonPrice (- 0.1);
       CallCharFunction (mkC 1 (- 0.5)); CallFillH (mkC 2 (- 0.5))] = Ok self' /\
    a_ self' = a_ self /\ b_ self' = b_ self.
Proof.
  destruct (weight_matrices_never_mutated stirling_gamma midpoint_rule 100
              notebook_params 1) as (self & Hinit & Hcs).
  - lia.
  - lra.
  - exact notebook_params_complete.
  - rewrite notebook_alpha. lra.
  - change (param notebook_params "nu") with 0.3. lra.
  - destruct (Hcs [CallRoughPrice (- 0.1) 5; CallHestonPrice (- 0.1);
                   CallCharFunction (mkC 1 (- 0.5)); CallFillH (mkC 2 (- 0.5))])
      as (self' & Hrun & HA & HB).
    exists self, self'. repeat split; assumption.
Defined.

(** ** The price queries *)

(** [rHeston_Call] takes the cutoff [upLim] and never reads it. *)
Lemma rHeston_Call_upLim_unused (q : quadrature) (self : roughHeston)
    (k upLim upLim' : R) :
  rHeston_Call q self k upLim = rHeston_Call q self k upLim'.
Proof. reflexivity. Qed.

(** At the notebook's cutoff 5.0 the code and the specification agree. *)
Lemma rHeston_Call_at_five (q : quadrature) (self : roughHeston) (k : R) :
  rHeston_Call q self k 5 = rHeston_Call_cutoff q self k 5.
Proof. reflexivity. Qed.

Lemma Cexp_0 : Cexp (RtoC 0) = mkC 1 0.
Proof.
  unfold Cexp. cbn [Re Im RtoC]. rewrite exp_0, cos_0, sin_0.
  apply C_ext; cbn [Re Im]; ring.
Qed.

(** With one time step and [kappa = 0] both integrals vanish and the
    characteristic function is 1 at every Fourier argument. *)
Lemma rHeston_char_function_flat (gamma : R -> R) (p : gmap string R) (T0 : R)
    (self : roughHeston) (a : C) :
  built gamma 1 p T0 self -> kappa self = 0 -> alpha self <> 1 ->
  exists h, rHeston_char_function self a = Ok (mkC 1 0, set_h_hat h self).
Proof.
  intros B Hk Ha.
  destruct (fill_h_built gamma 1 p T0 self self a ltac:(lia) B ltac:(now left))
    as (h & Hrun & Hlen & H0 & _).
  exists h.
  rewrite (rHeston_char_function_ok gamma 1 p T0 self h a ltac:(lia) B Hrun Ha).
  do 2 f_equal. rewrite <- Cexp_0. f_equal.
  unfold trapezoid_integral, fractional_integral.
  change (Z.to_nat 1) with 1%nat. unfold Csum. cbn [seq map fold_right].
  unfold vec_at at 3. rewrite H0, Hk.
  apply C_ext; cbn [Re Im Cadd Csub Cmul Copp RtoC]; ring.
Qed.

(** C5 (the rough-model half fails in the code). [rHeston_Call] returns
    the same result for every cutoff, because its quadrature always runs
    over [0, 5].  On a concrete run (the notebook's parameters with
    [kappa = 0], one time step, [T = 1], log-moneyness 0, the midpoint rule
    for [quad]) the cutoff 10 yields the [0, 5] price, which is not the
    price of the integral over [0, 10]. *)
Theorem rHeston_Call_ignores_upLim (gamma : R -> R) :
  (forall (q : quadrature) (self : roughHeston) (k upLim upLim' : R),
     rHeston_Call q self k upLim = rHeston_Call q self k upLim') /\
  exists self s1 s2,
    init gamma 1 flat_params 1 = Ok self /\
    rHeston_Call midpoint_rule self 0 10 = Ok (1 - 10 / 13 / PI, s1) /\
    rHeston_Call_cutoff midpoint_rule self 0 10 = Ok (1 - 40 / 101 / PI, s2) /\
    1 - 10 / 13 / PI <> 1 - 40 / 101 / PI.
Proof.
  split; [exact rHeston_Call_upLim_unused|].
  destruct (init_ok gamma 1 flat_params 1) as (self & Hinit & B).
  - lia.
  - lra.
  - repeat constructor; eexists; reflexivity.
  - change (param flat_params "alpha") with 0.6. lra.
  - destruct (built_params _ _ _ _ _ B) as (Hk & _ & _ & HS0 & _).
    change (param flat_params "kappa") with 0 in Hk.
    change (param flat_params "S0") with 1 in HS0.
    assert (Ha : alpha self <> 1).
    { rewrite (built_param_alpha _ _ _ _ _ B).
      change (param flat_params "alpha") with 0.6. lra. }
    assert (Hdamp : forall u, Cexp (- Ci * RtoC u * RtoC 0)%C = mkC 1 0).
    { intros u. rewrite <- Cexp_0. f_equal.
      apply C_ext; cbn [Re Im Cmul Copp RtoC Ci]; ring. }
    destruct (rHeston_char_function_flat gamma flat_params 1 self
                (RtoC ((0 + 5) / 2) - RtoC 0.5 * Ci)%C B Hk Ha) as (h1 & Hc1).
    destruct (rHeston_char_function_flat gamma flat_params 1 self
                (RtoC ((0 + 10) / 2) - RtoC 0.5 * Ci)%C B Hk Ha) as (h2 & Hc2).
    exists self, (set_h_hat h1 self), (set_h_hat h2 self).
    split; [exact Hinit|].
    assert (Hsqrt : sqrt (1 * (1 * exp 0)) = 1).
    { rewrite exp_0. replace (1 * (1 * 1)) with 1 by ring. apply sqrt_1. }
    split; [|split].
    + unfold rHeston_Call, quad. cbn [midpoint_rule quad_evals quad_loop quad_next].
      rewrite Hc1. cbn [bind fst snd app quad_estimate midpoint_rule].
      rewrite Hdamp, HS0, Hsqrt. do 2 f_equal.
      cbn [Re Im Cmul]. replace 0.25 with (1 / 4) by lra. field. apply PI_neq0.
    + unfold rHeston_Call_cutoff, quad.
      cbn [midpoint_rule quad_evals quad_loop quad_next].
      rewrite Hc2. cbn [bind fst snd app quad_estimate midpoint_rule].
      rewrite Hdamp, HS0, Hsqrt. do 2 f_equal.
      cbn [Re Im Cmul]. replace 0.25 with (1 / 4) by lra. field. apply PI_neq0.
    + intros Heq.
      assert (HPI := PI_RGT_0).
      assert (H : 10 / 13 / PI = 40 / 101 / PI) by lra.
      apply (Rmult_eq_compat_r PI) in H.
      unfold Rdiv in H. rewrite !Rmult_assoc, Rinv_l, !Rmult_1_r in H by lra. lra.
Qed.

(** ** Construction performs no validation *)

Lemma fill_a_minus_one (self : roughHeston) :
  n self = (-1)%Z -> fill_a self = Ok (set_a_ [] self).
Proof.
  intros Hn. unfold fill_a, np_zeros2. rewrite Hn.
  change (-1 + 1)%Z with 0%Z. cbn [Z.ltb Z.compare orb bind].
  change (replicate (Z.to_nat 0) (replicate (Z.to_nat 0) 0)) with (@nil (list R)).
  change (n (set_a_ [] self)) with (n self). rewrite Hn. reflexivity.
Qed.

Lemma fill_b_minus_one (self : roughHeston) :
  n self = (-1)%Z -> fill_b self = Err ValueError.
Proof.
  intros Hn. unfold fill_b, np_zeros2. rewrite Hn. reflexivity.
Qed.

Lemma init_fails_below_one (gamma : R -> R) (nb : Z) (p : gmap string R) (T0 : R) :
  (nb < 1)%Z -> exists err, init gamma nb p T0 = Err err.
Proof.
  intros Hnb. unfold init, py_truediv.
  destruct (Z.eqb_spec nb 0) as [->|Hnz]; [eexists; reflexivity|]. cbn [bind].
  unfold linspace. destruct (Z.ltb_spec (nb + 1) 0); [eexists; reflexivity|].
  assert (nb = (-1)%Z) as -> by lia.
  destruct (Z.ltb_spec 0 (-1 + 1 - 1)); [lia|]. cbn [bind].
  repeat match goal with
  | |- context [dict_get p ?key] =>
      destruct (dict_get p key); cbn [bind]; [|eexists; reflexivity]
  end.
  repeat match goal with
  | |- context [py_pow ?x ?y] =>
      destruct (py_pow x y); cbn [bind]; [|eexists; reflexivity]
  | |- context [np_div ?v ?w] =>
      destruct (np_div v w); cbn [bind]; [|eexists; reflexivity]
  end.
  rewrite fill_a_minus_one by reflexivity. cbn [bind].
  rewrite fill_b_minus_one by reflexivity. eexists; reflexivity.
Qed.

(** C6, as the code has it. The constructor has no validation and no
    InvalidParameter error. It fails for [n < 1] with whichever Python
    exception comes first ([ZeroDivisionError] from [T / n] at [n = 0],
    [ValueError] from [linspace] at [n < -1]), and for [n >= 1], [T >= 0]
    and [0 <= alpha <= 1] (where no power the constructor takes can leave
    the float range) it returns an engine whatever the values of [S0],
    [V0], [rho], [kappa], [theta] and [nu] are. *)
Theorem init_validates_nothing (gamma : R -> R) (nb : Z) (p : gmap string R)
    (T0 : R) :
  ((nb < 1)%Z -> exists err, init gamma nb p T0 = Err err) /\
  (nb = 0%Z -> init gamma nb p T0 = Err ZeroDivisionError) /\
  ((nb < -1)%Z -> init gamma nb p T0 = Err ValueError) /\
  ((1 <= nb)%Z -> 0 <= T0 -> complete p ->
   0 <= param p "alpha" -> param p "alpha" <= 1 ->
     exists self, init gamma nb p T0 = Ok self).
Proof.
  split; [apply init_fails_below_one|]. split; [|split].
  - intros ->. reflexivity.
  - intros Hnb. unfold init, py_truediv, linspace.
    destruct (Z.eqb_spec nb 0); [lia|]. cbn [bind].
    destruct (Z.ltb_spec (nb + 1) 0); [reflexivity | lia].
  - intros Hnb HT Hp Ha _.
    destruct (init_ok gamma nb p T0 Hnb HT Hp Ha) as (self & Hinit & _).
    now exists self.
Qed.

Lemma invalid_params_complete : complete invalid_params.
Proof. repeat constructor; eexists; reflexivity. Qed.

Lemma init_validates_nothing_witness :
  init stirling_gamma 0 notebook_params 1 = Err ZeroDivisionError /\
  (exists self, init stirling_gamma 100 notebook_params 1 = Ok self).
Proof.
  split.
  - apply (init_validates_nothing stirling_gamma 0 notebook_params 1). reflexivity.
  - apply (init_validates_nothing stirling_gamma 100 notebook_params 1).
    + lia.
    + lra.
    + exact notebook_params_complete.
    + rewrite notebook_alpha. lra.
    + rewrite notebook_alpha. lra.
Defined.

(** C6 fails as stated: one time step with horizon [T = 0] and
    [invalid_params] violates every invariant but [n >= 1], and no choice
    of [gamma] makes the constructor raise. *)
Lemma init_accepts_invalid_parameters :
  ~ (0.5 < param invalid_params "alpha" < 1) /\
  ~ (-1 <= param invalid_params "rho" <= 1) /\
  param invalid_params "S0" <= 0 /\
  param invalid_params "V0" <= 0 /\
  ~ (exists gamma err, init gamma 1 invalid_params 0 = Err err).
Proof.
  change (param invalid_params "alpha") with 0.3.
  change (param invalid_params "rho") with 2.
  change (param invalid_params "S0") with (- 1).
  change (param invalid_params "V0") with (- 0.02).
  repeat split; try lra.
  intros (gamma & err & Herr).
  destruct (init_ok gamma 1 invalid_params 0) as (self & Hinit & _).
  - lia.
  - lra.
  - exact invalid_params_complete.
  - change (param invalid_params "alpha") with 0.3. lra.
  - rewrite Hinit in Herr. discriminate.
Qed.

(** ** Bisection and the implied volatility *)

Lemma sign_across (x y c : R) : 0 < x * c -> y * c < 0 -> x * y < 0.
Proof.
  intros Hx Hy.
  destruct (Rtotal_order c 0) as [Hc|[->|Hc]]; [| lra |]; nra.
Qed.

Section Bisection.

Variables (f : R -> R) (fa xtol rtol lo hi : R).
Hypothesis (Hrtol : 0 <= rtol).

Local Abbreviation bracket := (bisect_bracket f fa lo hi).
Local Abbreviation near_sign_change := (near_sign_change f xtol rtol lo hi).

Lemma bisect_loop_converges (iter : nat) :
  forall xa dm, bracket xa dm -> dm / 2 ^ S iter < xtol ->
    exists v, bisect_loop f fa xtol rtol (S iter) xa dm = Ok v /\ near_sign_change v.
Proof.
  induction iter as [|iter IH]; intros xa dm (Hdm & Hlo & Hhi & Hfa & Hfb) Hsmall.
  - cbn [bisect_loop].
    assert (Hhalf : dm * 0.5 < xtol) by (simpl in Hsmall; lra).
    assert (Hin : lo <= xa + dm * 0.5 <= hi) by lra.
    destruct (Req_dec_T (f (xa + dm * 0.5)) 0) as [Hz|Hnz].
    + eexists. split; [reflexivity|]. split; [exact Hin | now left].
    + destruct (Rlt_dec (Rabs (dm * 0.5)) (xtol + rtol * Rabs (xa + dm * 0.5)))
        as [_|Hno].
      2: { exfalso. apply Hno. rewrite Rabs_pos_eq by lra.
           pose proof (Rabs_pos (xa + dm * 0.5)). nra. }
      eexists. split; [reflexivity|]. split; [exact Hin|]. right.
      assert (Htol : dm * 0.5 < xtol + rtol * Rabs (xa + dm * 0.5)).
      { pose proof (Rabs_pos (xa + dm * 0.5)). nra. }
      destruct (Rle_dec 0 (f (xa + dm * 0.5) * fa)) as [Hge|Hlt].
      * exists (xa + dm). split; [lra|]. split.
        -- replace (xa + dm - (xa + dm * 0.5)) with (dm * 0.5) by lra.
           rewrite Rabs_pos_eq by lra. exact Htol.
        -- apply (sign_across _ _ fa); [|exact Hfb].
           destruct Hge as [Hgt|Heq]; [exact Hgt|].
           exfalso. symmetry in Heq. apply Rmult_integral in Heq.
           destruct Heq as [?|Hfa0]; [contradiction|]. rewrite Hfa0 in Hfa. lra.
      * exists xa. split; [lra|]. split.
        -- replace (xa - (xa + dm * 0.5)) with (- (dm * 0.5)) by lra.
           rewrite Rabs_Ropp, Rabs_pos_eq by lra. exact Htol.
        -- rewrite Rmult_comm. apply (sign_across _ _ fa); [exact Hfa | lra].
  - change (bisect_loop f fa xtol rtol (S (S iter)) xa dm) with
      (let dm' := dm * 0.5 in
       let xm := xa + dm' in
       let fm := f xm in
       let xa' := if Rle_dec 0 (fm * fa) then xm else xa in
       if Req_dec_T fm 0 then Ok xm
       else if Rlt_dec (Rabs dm') (xtol + rtol * Rabs xm) then Ok xm
       else bisect_loop f fa xtol rtol (S iter) xa' dm').
    cbv zeta.
    assert (Hin : lo <= xa + dm * 0.5 <= hi) by lra.
    destruct (Req_dec_T (f (xa + dm * 0.5)) 0) as [Hz|Hnz].
    + eexists. split; [reflexivity|]. split; [exact Hin | now left].
    + destruct (Rlt_dec (Rabs (dm * 0.5)) (xtol + rtol * Rabs (xa + dm * 0.5)))
        as [Htol|Hno].
      * rewrite Rabs_pos_eq in Htol by lra.
        eexists. split; [reflexivity|]. split; [exact Hin|]. right.
        destruct (Rle_dec 0 (f (xa + dm * 0.5) * fa)) as [Hge|Hlt].
        -- exists (xa + dm). split; [lra|]. split.
           ++ replace (xa + dm - (xa + dm * 0.5)) with (dm * 0.5) by lra.
              rewrite Rabs_pos_eq by lra. exact Htol.
           ++ apply (sign_across _ _ fa); [|exact Hfb].
              destruct Hge as [Hgt|Heq]; [exact Hgt|].
              exfalso. symmetry in Heq. apply Rmult_integral in Heq.
              destruct Heq as [?|Hfa0]; [contradiction|]. rewrite Hfa0 in Hfa. lra.
        -- exists xa. split; [lra|]. split.
           ++ replace (xa - (xa + dm * 0.5)) with (- (dm * 0.5)) by lra.
              rewrite Rabs_Ropp, Rabs_pos_eq by lra. exact Htol.
           ++ rewrite Rmult_comm. apply (sign_across _ _ fa); [exact Hfa | lra].
      * apply IH.
        -- destruct (Rle_dec 0 (f (xa + dm * 0.5) * fa)) as [Hge|Hlt].
           ++ repeat split; try lra.
              ** destruct Hge as [Hgt|Heq]; [exact Hgt|].
                 exfalso. symmetry in Heq. apply Rmult_integral in Heq.
                 destruct Heq as [?|Hfa0]; [contradiction|]. rewrite Hfa0 in Hfa. lra.
              ** replace (xa + dm * 0.5 + dm * 0.5) with (xa + dm) by lra. exact Hfb.
           ++ repeat split; try lra.
        -- replace (dm * 0.5 / 2 ^ S iter) with (dm / 2 ^ S (S iter)); [exact Hsmall|].
           replace 0.5 with (/ 2) by lra. cbn [pow]. field. apply pow_nonzero. lra.
Qed.

End Bisection.

Lemma bisect_guards_pass : 0 < bisect_xtol /\ ~ 1e-15 < bisect_rtol_min.
Proof.
  unfold bisect_xtol, bisect_rtol_min. split; [lra|].
  replace (2 ^ 52) with 4503599627370496 by ring. lra.
Qed.

(** [bisect] as [impliedVol] calls it: it raises on equal strict signs and
    otherwise returns within its 100 iterations. *)
Lemma bisect_on_vol_interval (f : R -> R) :
  (0 < f 0.0001 * f 3 ->
     bisect f 0.0001 3 bisect_xtol 1e-15 bisect_maxiter = Err ValueError) /\
  (f 0.0001 * f 3 <= 0 ->
     exists v, bisect f 0.0001 3 bisect_xtol 1e-15 bisect_maxiter = Ok v /\
       near_sign_change f bisect_xtol 1e-15 0.0001 3 v).
Proof.
  destruct bisect_guards_pass as [Hx Hr]. unfold bisect.
  destruct (Rle_dec bisect_xtol 0); [lra|].
  destruct (Rlt_dec 1e-15 bisect_rtol_min); [contradiction|].
  split; intros Hsign.
  - destruct (Rlt_dec 0 (f 0.0001 * f 3)); [reflexivity | contradiction].
  - destruct (Rlt_dec 0 (f 0.0001 * f 3)); [lra|].
    destruct (Req_dec_T (f 0.0001) 0) as [Ha|Ha].
    { eexists. split; [reflexivity|]. split; [lra | now left]. }
    destruct (Req_dec_T (f 3) 0) as [Hb|Hb].
    { eexists. split; [reflexivity|]. split; [lra | now left]. }
    apply (bisect_loop_converges f (f 0.0001) bisect_xtol 1e-15 0.0001 3
             ltac:(lra) 99).
    + unfold bisect_bracket. repeat split; try lra.
      * nra.
      * replace (0.0001 + (3 - 0.0001)) with 3 by lra.
        destruct Hsign as [Hlt|Heq]; [rewrite Rmult_comm; exact Hlt|].
        apply Rmult_integral in Heq. tauto.
    + unfold bisect_xtol.
      replace (2 ^ 100) with 1267650600228229401496703205376 by ring. lra.
Qed.


Lemma logistic_cdf_bounds (x : R) : 0 < logistic_cdf x < 1.
Proof.
  unfold logistic_cdf. pose proof (exp_pos (- 1.702 * x)) as He.
  split.
  - apply Rdiv_lt_0_compat; lra.
  - apply (Rmult_lt_reg_r (1 + exp (- 1.702 * x))); [lra|].
    unfold Rdiv. rewrite Rmult_assoc, Rinv_l by lra. lra.
Qed.







(* ===================================================================== *)
(** * Further properties of the code *)
(* ===================================================================== *)

(** ** Black-Scholes *)

(** X1. Put-call parity: for a cdf that is symmetric about 0
    ([N(-x) = 1 - N(x)], as the normal cdf is),
    [Call - Put = S - K exp(-r T)] for every positive spot, strike,
    maturity and volatility and every rate. *)
Theorem BlackScholes_put_call_parity (norm_cdf : R -> R) (S K T sigma r : R) :
  (forall x, norm_cdf (- x) = 1 - norm_cdf x) ->
  0 < S -> 0 < K -> 0 < T -> 0 < sigma ->
  BlackScholesCallPut norm_cdf S K T sigma r 1
  - BlackScholesCallPut norm_cdf S K T sigma r (-1)
  = S - K * exp (- r * T).
Proof.
  intros Hsym _ _ _ _. unfold BlackScholesCallPut.
  set (d1 := (ln (S / K) + (r + 0.5 * sigma ^ 2) * T) / (sigma * sqrt T)).
  set (d2 := d1 - sigma * sqrt T).
  replace (-1 * d1) with (- d1) by ring. replace (-1 * d2) with (- d2) by ring.
  rewrite !Hsym. replace (1 * d1) with d1 by ring. replace (1 * d2) with d2 by ring.
  ring.
Qed.

Lemma logistic_cdf_symmetric (x : R) : logistic_cdf (- x) = 1 - logistic_cdf x.
Proof.
  unfold logistic_cdf.
  replace (- 1.702 * - x) with (- (- 1.702 * x)) by ring.
  rewrite exp_Ropp. pose proof (exp_pos (- 1.702 * x)) as He.
  field. split; lra.
Qed.

Lemma BlackScholes_put_call_parity_witness :
  BlackScholesCallPut logistic_cdf 1 1.1 1 0.2 0 1
  - BlackScholesCallPut logistic_cdf 1 1.1 1 0.2 0 (-1)
  = 1 - 1.1 * exp (- 0 * 1).
Proof.
  apply (BlackScholes_put_call_parity logistic_cdf 1 1.1 1 0.2 0);
    [exact logistic_cdf_symmetric | lra ..].
Defined.

(** ** Errors of the constructor *)

Lemma float_max_lower : 1024 <= float_max.
Proof.
  unfold float_max.
  assert (Hp : 1024 <= 2 ^ 1023).
  { replace 1024 with (2 ^ 10) by ring. apply Rle_pow; [lra | lia]. }
  assert (Hi : 0 < / 2 ^ 52 <= 1).
  { split; [apply Rinv_0_lt_compat, pow_lt; lra|].
    rewrite <- Rinv_1. apply Rinv_le_contravar; [lra|].
    apply pow_R1_Rle. lra. }
  nra.
Qed.

(** Powers of a base in (0, 1]: at most 1 for an exponent [>= 0], at most
    [1 / x] for an exponent [>= -1]. *)
Lemma Rpower_le_1 (x y : R) : 0 < x <= 1 -> 0 <= y -> Rpower x y <= 1.
Proof.
  intros [Hx Hx1] Hy. unfold Rpower. rewrite <- exp_0.
  destruct (Req_dec_T x 1) as [->|Hne].
  - rewrite ln_1, Rmult_0_r. lra.
  - assert (ln x < 0) by (rewrite <- ln_1; apply ln_increasing; lra).
    destruct (Req_dec_T y 0) as [->|Hy0]; [rewrite Rmult_0_l; lra|].
    left. apply exp_increasing. nra.
Qed.

Lemma Rpower_le_inv (x y : R) : 0 < x <= 1 -> -1 <= y -> Rpower x y <= / x.
Proof.
  intros [Hx Hx1] Hy.
  replace (/ x) with (Rpower x (Ropp 1))
    by (rewrite Rpower_Ropp, Rpower_1 by exact Hx; reflexivity).
  unfold Rpower.
  assert (ln x <= 0).
  { destruct (Req_dec_T x 1) as [->|Hne]; [rewrite ln_1; lra|].
    left. rewrite <- ln_1. apply ln_increasing; lra. }
  destruct (Req_dec_T (y * ln x) (Ropp 1 * ln x)) as [->|Hne]; [lra|].
  left. apply exp_increasing. nra.
Qed.

Lemma stirling_gamma_pos (x : R) : 0 < x -> 0 < stirling_gamma x.
Proof.
  intros Hx. unfold stirling_gamma. apply Rmult_lt_0_compat.
  - apply sqrt_lt_R0. apply Rdiv_lt_0_compat; [|exact Hx].
    pose proof PI_RGT_0. lra.
  - unfold Rpower. apply exp_pos.
Qed.

Lemma linspace_ok (start stop : R) (num : Z) :
  (0 <= num)%Z -> exists g, linspace start stop num = Ok g.
Proof.
  intros H. unfold linspace. destruct (Z.ltb_spec num 0); [lia|].
  destruct (0 <? num - 1)%Z; eexists; reflexivity.
Qed.

(** X2. A parameter dict that lacks one of the seven keys makes the
    constructor raise [KeyError] (for any [n] other than 0 with
    [n >= -1], so that the two statements before the lookups pass). *)
Theorem init_missing_key (gamma : R -> R) (nb : Z) (p : gmap string R) (T0 : R) :
  nb <> 0%Z -> (-1 <= nb)%Z -> ~ complete p ->
  init gamma nb p T0 = Err KeyError.
Proof.
  intros Hnz Hnb Hp. unfold init, py_truediv.
  destruct (Z.eqb_spec nb 0); [contradiction|]. cbn [bind].
  destruct (linspace_ok 0 T0 (nb + 1)) as (g & ->); [lia|]. cbn [bind].
  unfold dict_get.
  destruct (p !! "S0") eqn:H1; [cbn [bind] | reflexivity].
  destruct (p !! "kappa") eqn:H2; [cbn [bind] | reflexivity].
  destruct (p !! "nu") eqn:H3; [cbn [bind] | reflexivity].
  destruct (p !! "theta") eqn:H4; [cbn [bind] | reflexivity].
  destruct (p !! "alpha") eqn:H5; [cbn [bind] | reflexivity].
  destruct (p !! "V0") eqn:H6; [cbn [bind] | reflexivity].
  destruct (p !! "rho") eqn:H7; [cbn [bind] | reflexivity].
  exfalso. apply Hp. unfold complete, param_keys.
  repeat constructor; eexists; eassumption.
Qed.

Lemma init_missing_key_witness :
  init stirling_gamma 100 (delete "rho" notebook_params) 1 = Err KeyError.
Proof.
  apply (init_missing_key stirling_gamma 100 (delete "rho" notebook_params) 1).
  - lia.
  - lia.
  - unfold complete, param_keys. intros H.
    repeat match goal with
    | H : Forall _ (_ :: _) |- _ => apply Forall_cons in H; destruct H as [?H H]
    end.
    match goal with
    | H : is_Some (delete "rho" notebook_params !! "rho") |- _ =>
        destruct H as [v Hv]; discriminate Hv
    end.
Defined.

(** The first pass of a loop that raises. *)
Lemma for_in_range_first_err {S : Type} (body : Z -> S -> result S)
    (lo hi : Z) (s : S) (e : pyerror) :
  (lo < hi)%Z -> body lo s = Err e -> for_in (py_range lo hi) body s = Err e.
Proof.
  intros Hlt Hb. rewrite py_range_cons by exact Hlt. cbn [for_in].
  now rewrite Hb.
Qed.

Lemma a_value_above_minus_one (gamma : R -> R) (self : roughHeston) (j k : Z) :
  frac self = PyFloat (float_pow (dt self) (alpha self) / gamma (alpha self + 2)) ->
  -1 <= alpha self -> (1 <= k)%Z -> (0 <= j <= k)%Z ->
  a self j k = Ok (PyFloat (a_weight gamma (dt self) (alpha self) j k)).
Proof.
  intros Hfrac Ha Hk Hj. unfold a, a_weight. rewrite Hfrac.
  destruct (Z.eqb_spec j 0) as [->|Hj0].
  - rewrite py_pow_nonneg by (try lra; apply IZR_le; lia).
    rewrite py_pow_pos by (apply IZR_lt; lia).
    cbn [bind py_sub py_mul py_binop]. Zcases.
  - destruct (Z.eqb_spec j k) as [->|Hjk].
    + cbn [bind py_mul py_binop]. Zcases. do 2 f_equal. ring.
    + rewrite py_pow_pos by (apply IZR_lt; lia).
      rewrite py_pow_nonneg by (try lra; apply IZR_le; lia).
      rewrite py_pow_pos by (apply IZR_lt; lia).
      cbn [bind py_sub py_add py_mul py_binop]. Zcases.
Qed.

Lemma fill_a_above_minus_one (gamma : R -> R) (self : roughHeston) :
  frac self = PyFloat (float_pow (dt self) (alpha self) / gamma (alpha self + 2)) ->
  -1 <= alpha self -> (0 <= n self)%Z ->
  exists m, fill_a self = Ok (set_a_ m self).
Proof.
  intros Hfrac Ha Hn. unfold fill_a.
  destruct (np_zeros2_is (n self + 1) (n self + 1)) as (m0 & -> & Hm0); [lia..|].
  cbn [bind].
  destruct (fill_loops a_ set_a_ a (a_weight gamma (dt self) (alpha self))
              (fun k => (k + 1)%Z) (n self + 1) (n self + 1) (n self + 1) self m0)
    as (m & Hrun & Hm); try assumption; try (intros; lia).
  - reflexivity.
  - reflexivity.
  - intros m j k Hk Hj.
    apply (a_value_above_minus_one gamma (set_a_ m self)); cbn; (assumption || lia).
  - exists m. exact Hrun.
Qed.

(** [fill_a] with [alpha < -1]: the first weight raises. *)
Lemma fill_a_below_minus_one (self : roughHeston) :
  alpha self < -1 -> (1 <= n self)%Z -> fill_a self = Err ZeroDivisionError.
Proof.
  intros Ha Hn. unfold fill_a.
  destruct (np_zeros2_is (n self + 1) (n self + 1)) as (m0 & -> & Hm0); [lia..|].
  cbn [bind]. apply for_in_range_first_err; [cbn; lia|].
  apply for_in_range_first_err; [lia|].
  unfold a. cbn [Z.eqb alpha set_a_]. unfold py_pow.
  destruct (Req_dec_T (IZR (1 - 1)) 0) as [_|Hne]; [|exfalso; apply Hne; reflexivity].
  destruct (Rlt_dec (alpha self + 1) 0); [reflexivity | lra].
Qed.

(** [fill_b] with [alpha < 0]: the first weight raises. *)
Lemma fill_b_negative_alpha (self : roughHeston) :
  alpha self < 0 -> (1 <= n self)%Z -> fill_b self = Err ZeroDivisionError.
Proof.
  intros Ha Hn. unfold fill_b.
  destruct (np_zeros2_is (n self) (n self + 1)) as (m0 & -> & Hm0); [lia..|].
  cbn [bind]. apply for_in_range_first_err; [cbn; lia|].
  apply for_in_range_first_err; [lia|].
  unfold b. cbn [alpha set_b_].
  rewrite py_pow_pos by (apply IZR_lt; lia). cbn [bind].
  unfold py_pow.
  destruct (Req_dec_T (IZR (1 - 0 - 1)) 0) as [_|Hne]; [|exfalso; apply Hne; reflexivity].
  destruct (Rlt_dec (alpha self) 0); [reflexivity | lra].
Qed.

(** X3. A negative [alpha] makes the constructor raise
    [ZeroDivisionError], as long as [dt ** alpha] stays within the float
    range (beyond it Python raises OverflowError first): 0 is raised to a
    negative power, in [dt ** alpha] when [T = 0] and otherwise in the
    first weight of [fill_a] (for [alpha < -1]) or of [fill_b]. *)
Theorem init_negative_alpha (gamma : R -> R) (nb : Z) (p : gmap string R)
    (T0 : R) :
  (1 <= nb)%Z -> 0 <= T0 -> complete p -> param p "alpha" < 0 ->
  float_pow (T0 / IZR nb) (param p "alpha") <= float_max ->
  init gamma nb p T0 = Err ZeroDivisionError.
Proof.
  intros Hnb HT Hp Ha _. unfold init, py_truediv.
  destruct (Z.eqb_spec nb 0) as [?|_]; [lia|]. cbn [bind].
  rewrite linspace_grid by exact Hnb. cbn [bind].
  unfold complete, param_keys in Hp.
  repeat match goal with
  | H : Forall _ (_ :: _) |- _ => apply Forall_cons in H; destruct H as [?H H]
  end.
  repeat match goal with
  | H : is_Some (p !! ?key) |- _ =>
      destruct (dict_get_param p key H) as [-> ?]; clear H; cbn [bind]
  end.
  destruct (Req_dec_T T0 0) as [->|HT0].
  - unfold py_pow. replace (0 / IZR nb) with 0 by (unfold Rdiv; ring).
    destruct (Req_dec_T 0 0); [|lra].
    destruct (Rlt_dec (param p "alpha") 0); [reflexivity | lra].
  - assert (Hdt : 0 < T0 / IZR nb).
    { apply Rdiv_lt_0_compat; [lra | apply IZR_lt; lia]. }
    rewrite py_pow_pos by exact Hdt. cbn [bind np_div py_binop].
    destruct (Rlt_dec (param p "alpha") (-1)) as [Hlow|Hhigh].
    + rewrite fill_a_below_minus_one by (cbn; (assumption || lia)). reflexivity.
    + match goal with |- context [fill_a ?s] =>
        destruct (fill_a_above_minus_one gamma s) as (ma & ->);
          cbn; try (reflexivity || lra || lia)
      end.
      cbn [bind]. apply fill_b_negative_alpha; cbn; (assumption || lia).
Qed.

Lemma init_negative_alpha_witness :
  init stirling_gamma 100 (<["alpha" := - 0.5]> notebook_params) 1
  = Err ZeroDivisionError.
Proof.
  apply (init_negative_alpha stirling_gamma 100
           (<["alpha" := - 0.5]> notebook_params) 1).
  - lia.
  - lra.
  - repeat constructor; eexists; reflexivity.
  - change (param (<["alpha" := - 0.5]> notebook_params) "alpha") with (- 0.5). lra.
  - change (param (<["alpha" := - 0.5]> notebook_params) "alpha") with (- 0.5).
    unfold float_pow. destruct (Rlt_dec 0 (1 / 100)) as [_|Hn]; [|lra].
    pose proof (Rpower_le_inv (1 / 100) (- 0.5) ltac:(lra) ltac:(lra)).
    pose proof float_max_lower. lra.
Defined.

Lemma mat_store_complex (r c : Z) (f : Z -> Z -> R) (m : matrix) (j k : Z) (z : C) :
  mat_is r c f m -> (0 <= j < r)%Z -> (0 <= k < c)%Z ->
  mat_store m j k (PyComplex z) = Err TypeError.
Proof.
  intros [Hlen Hrows] Hj Hk.
  destruct (Hrows j Hj) as (row & Hrow & Hrl & Hent).
  unfold mat_store. rewrite (np_get_ok m j row) by (lia || exact Hrow).
  cbn [bind]. rewrite np_index_ok by lia. reflexivity.
Qed.

(** [fill_a] with a complex [frac]: the first store is refused. *)
Lemma fill_a_complex_frac (self : roughHeston) (z : C) :
  frac self = PyComplex z -> 0 <= alpha self -> (1 <= n self)%Z ->
  fill_a self = Err TypeError.
Proof.
  intros Hfrac Ha Hn. unfold fill_a.
  destruct (np_zeros2_is (n self + 1) (n self + 1)) as (m0 & -> & Hm0); [lia..|].
  cbn [bind]. apply for_in_range_first_err; [cbn; lia|].
  apply for_in_range_first_err; [lia|].
  unfold a. cbn [Z.eqb alpha frac set_a_ a_].
  rewrite py_pow_nonneg by (try lra; apply IZR_le; lia).
  rewrite py_pow_pos by (apply IZR_lt; lia).
  rewrite Hfrac. cbn [bind py_sub py_mul py_binop].
  rewrite (mat_store_complex _ _ _ _ 0 1 _ Hm0) by lia. reflexivity.
Qed.

(** X4. A negative horizon [T] (a Python float, as the notebook passes
    it) with a non-integer [alpha >= 0] makes the constructor raise
    [TypeError], as long as [|dt| ** alpha] stays within the float range
    (beyond it Python raises OverflowError in the complex power) and
    [gamma] does not vanish at [alpha + 2] and [alpha + 1] (the complex
    division would raise): [dt ** alpha] is then a complex number, so is
    every weight, and the first store into the float array [a_] is
    refused. *)
Theorem init_negative_horizon (gamma : R -> R) (nb : Z) (p : gmap string R)
    (T0 : R) :
  (1 <= nb)%Z -> T0 < 0 -> complete p ->
  0 <= param p "alpha" -> is_integer (param p "alpha") = false ->
  Rpower (- (T0 / IZR nb)) (param p "alpha") <= float_max ->
  gamma (param p "alpha" + 2) <> 0 -> gamma (param p "alpha" + 1) <> 0 ->
  init gamma nb p T0 = Err TypeError.
Proof.
  intros Hnb HT Hp Ha Hint _ Hg2 Hg1. unfold init, py_truediv.
  destruct (Z.eqb_spec nb 0) as [?|_]; [lia|]. cbn [bind].
  rewrite linspace_grid by exact Hnb. cbn [bind].
  unfold complete, param_keys in Hp.
  repeat match goal with
  | H : Forall _ (_ :: _) |- _ => apply Forall_cons in H; destruct H as [?H H]
  end.
  repeat match goal with
  | H : is_Some (p !! ?key) |- _ =>
      destruct (dict_get_param p key H) as [-> ?]; clear H; cbn [bind]
  end.
  assert (Hdt : T0 / IZR nb < 0).
  { unfold Rdiv. rewrite <- (Rmult_0_l (/ IZR nb)).
    apply Rmult_lt_compat_r; [|exact HT].
    apply Rinv_0_lt_compat, IZR_lt. lia. }
  assert (Hnz : forall g, g <> 0 -> Cnorm2 (RtoC g) <> 0).
  { intros g Hg. unfold Cnorm2. cbn [Re Im RtoC]. nra. }
  unfold py_pow.
  destruct (Req_dec_T (T0 / IZR nb) 0); [lra|].
  destruct (Rlt_dec (T0 / IZR nb) 0); [|lra].
  rewrite Hint. cbn [bind np_div to_complex].
  destruct (Req_dec_T (Cnorm2 (RtoC (gamma (param p "alpha" + 2)))) 0)
    as [Hz|_]; [now apply Hnz in Hz|].
  destruct (Req_dec_T (Cnorm2 (RtoC (gamma (param p "alpha" + 1)))) 0)
    as [Hz|_]; [now apply Hnz in Hz|].
  cbn [bind].
  match goal with |- context [fill_a ?s] =>
    rewrite (fill_a_complex_frac s _ eq_refl) by (cbn; (assumption || lia))
  end.
  reflexivity.
Qed.

Lemma notebook_alpha_not_integer : is_integer 0.6 = false.
Proof.
  unfold is_integer. destruct (Req_dec_T 0.6 (IZR (Int_part 0.6))) as [H|_];
    [|reflexivity].
  exfalso. assert (Hint : Int_part 0.6 = 0%Z).
  { symmetry. apply Int_part_spec. lra. }
  rewrite Hint in H. lra.
Qed.

Lemma init_negative_horizon_witness :
  init stirling_gamma 100 notebook_params (- 1) = Err TypeError.
Proof.
  apply (init_negative_horizon stirling_gamma 100 notebook_params (- 1)).
  - lia.
  - lra.
  - exact notebook_params_complete.
  - rewrite notebook_alpha. lra.
  - rewrite notebook_alpha. exact notebook_alpha_not_integer.
  - rewrite notebook_alpha.
    pose proof (Rpower_le_1 (- (- 1 / 100)) 0.6 ltac:(lra) ltac:(lra)).
    pose proof float_max_lower. lra.
  - rewrite notebook_alpha.
    pose proof (stirling_gamma_pos (0.6 + 2) ltac:(lra)). lra.
  - rewrite notebook_alpha.
    pose proof (stirling_gamma_pos (0.6 + 1) ltac:(lra)). lra.
Defined.

(** ** The time grid and the structure of the weights *)

(** X5. The constructor's time grid has [n + 1] points, starts at 0, ends
    exactly at [T], and consecutive points differ by [dt = T / n]. *)
Theorem time_grid_equally_spaced (gamma : R -> R) (nb : Z) (p : gmap string R)
    (T0 : R) :
  (1 <= nb)%Z -> 0 <= T0 -> complete p -> 0 <= param p "alpha" ->
  exists self, init gamma nb p T0 = Ok self /\
    dt self = T0 / IZR nb /\
    length (time_grid self) = Z.to_nat (nb + 1) /\
    np_get (time_grid self) 0 = Ok 0 /\
    np_get (time_grid self) nb = Ok T0 /\
    forall i, (0 <= i < nb)%Z ->
      exists t t', np_get (time_grid self) i = Ok t /\
        np_get (time_grid self) (i + 1) = Ok t' /\ t' - t = dt self.
Proof.
  intros Hnb HT Hp Ha.
  destruct (init_ok gamma nb p T0 Hnb HT Hp Ha) as (self & Hinit & B).
  exists self. split; [exact Hinit|].
  assert (HnbR : IZR nb <> 0) by (apply not_0_IZR; lia).
  split; [exact (built_dt _ _ _ _ _ B)|].
  split; [exact (grid_length _ _ _ _ _ B)|].
  split; [|split].
  - apply np_get_ok; [lia|]. change (Z.to_nat 0) with 0%nat.
    rewrite (grid_lookup gamma nb p T0 self 0 B) by lia. cbn [INR]. f_equal. ring.
  - apply np_get_ok; [lia|].
    rewrite (grid_lookup gamma nb p T0 self (Z.to_nat nb) B) by lia.
    f_equal. rewrite INR_IZR_INZ, Z2Nat.id by lia. field. exact HnbR.
  - intros i Hi.
    exists (INR (Z.to_nat i) * (T0 / IZR nb)), (INR (S (Z.to_nat i)) * (T0 / IZR nb)).
    split; [|split].
    + apply np_get_ok; [lia|]. apply (grid_lookup gamma nb p T0 self _ B). lia.
    + apply np_get_ok; [lia|].
      replace (Z.to_nat (i + 1)) with (S (Z.to_nat i)) by lia.
      apply (grid_lookup gamma nb p T0 self _ B). lia.
    + rewrite (built_dt _ _ _ _ _ B), S_INR. ring.
Qed.

Lemma time_grid_equally_spaced_witness :
  exists self, init stirling_gamma 100 notebook_params 1 = Ok self /\
    np_get (time_grid self) 100 = Ok 1.
Proof.
  destruct (time_grid_equally_spaced stirling_gamma 100 notebook_params 1)
    as (self & Hinit & _ & _ & _ & Hlast & _).
  - lia.
  - lra.
  - exact notebook_params_complete.
  - rewrite notebook_alpha. lra.
  - exists self. split; assumption.
Defined.

(** X6. Both weight matrices are constant along their diagonals (the
    convolution structure): [b_{j,k} = b_{j+1,k+1}] for [0 <= j < k < n],
    and [a_{j,k} = a_{j+1,k+1}] for [0 < j < k < n].  Row 0 of [a_] is the
    exception the second range leaves out. *)
Theorem weights_constant_on_diagonals (gamma : R -> R) (nb : Z)
    (p : gmap string R) (T0 : R) :
  (1 <= nb)%Z -> 0 <= T0 -> complete p -> 0 <= param p "alpha" ->
  exists self, init gamma nb p T0 = Ok self /\
    (forall j k, (0 <= j < k)%Z -> (k < nb)%Z ->
       exists w, mat_get (b_ self) j k = Ok w /\
                 mat_get (b_ self) (j + 1) (k + 1) = Ok w) /\
    (forall j k, (0 < j < k)%Z -> (k < nb)%Z ->
       exists w, mat_get (a_ self) j k = Ok w /\
                 mat_get (a_ self) (j + 1) (k + 1) = Ok w).
Proof.
  intros Hnb HT Hp Ha.
  destruct (init_ok gamma nb p T0 Hnb HT Hp Ha) as (self & Hinit & B).
  exists self. split; [exact Hinit|].
  pose proof (built_a _ _ _ _ _ B) as HA.
  pose proof (built_b _ _ _ _ _ B) as HB.
  split.
  - intros j k Hj Hk. eexists. split.
    + apply (mat_is_get _ _ _ _ j k HB); lia.
    + rewrite (mat_is_get _ _ _ _ (j + 1) (k + 1) HB) by lia. f_equal.
      unfold b_weight. Zcases.
      replace (k + 1 - (j + 1))%Z with (k - j)%Z by lia.
      replace (k - j - 1)%Z with (k + 1 - (j + 1) - 1)%Z by lia.
      replace (k + 1 - (j + 1) - 1 + 1)%Z with (k - j)%Z by lia.
      reflexivity.
  - intros j k Hj Hk. eexists. split.
    + apply (mat_is_get _ _ _ _ j k HA); lia.
    + rewrite (mat_is_get _ _ _ _ (j + 1) (k + 1) HA) by lia. f_equal.
      unfold a_weight. Zcases.
      replace (k + 1 + 1 - (j + 1))%Z with (k + 1 - j)%Z by lia.
      replace (k + 1 - 1 - (j + 1))%Z with (k - 1 - j)%Z by lia.
      replace (k + 1 - (j + 1))%Z with (k - j)%Z by lia.
      reflexivity.
Qed.

Lemma weights_constant_on_diagonals_witness :
  exists self w, init stirling_gamma 100 notebook_params 1 = Ok self /\
    mat_get (b_ self) 3 7 = Ok w /\ mat_get (b_ self) 4 8 = Ok w.
Proof.
  destruct (weights_constant_on_diagonals stirling_gamma 100 notebook_params 1)
    as (self & Hinit & Hb & _).
  - lia.
  - lra.
  - exact notebook_params_complete.
  - rewrite notebook_alpha. lra.
  - destruct (Hb 3%Z 7%Z) as (w & H1 & H2); [lia | lia |].
    exists self, w. repeat split; assumption.
Defined.

(** ** The reference pricer *)

(** X7. [heston_Call] has no side effect: for a non-zero [nu] it returns,
    and the object it leaves is the object it was given, [h_hat]
    included. *)
Theorem heston_Call_leaves_object (q : quadrature) (self : roughHeston) (k : R) :
  nu self <> 0 -> exists price, heston_Call q self k = Ok (price, self).
Proof.
  intros Hnu. unfold heston_Call, quad.
  match goal with |- context [quad_loop q ?f ?lo ?hi ?fu ?seen self] =>
    assert (Hf : forall u st, st = self ->
              exists y st', f u st = Ok (y, st') /\ st' = self);
    [| destruct (quad_loop_frame (fun st => st = self) q f lo hi Hf fu seen self
                   eq_refl) as (res & s' & -> & ->)]
  end.
  - intros u st ->.
    destruct (heston_char_function_ok self (RtoC u - RtoC 0.5 * Ci)%C Hnu)
      as (c & ->).
    cbn [bind]. eexists. eexists. split; reflexivity.
  - cbn [bind]. eexists. reflexivity.
Qed.

Lemma heston_Call_leaves_object_witness :
  exists self price,
    init stirling_gamma 100 notebook_params 1 = Ok self /\
    heston_Call midpoint_rule self (- 0.1) = Ok (price, self).
Proof.
  destruct (init_ok stirling_gamma 100 notebook_params 1) as (self & Hinit & B).
  - lia.
  - lra.
  - exact notebook_params_complete.
  - rewrite notebook_alpha. lra.
  - destruct (heston_Call_leaves_object midpoint_rule self (- 0.1)) as (price & Hp).
    + destruct (built_params _ _ _ _ _ B) as (_ & _ & _ & _ & -> & _).
      change (param notebook_params "nu") with 0.3. lra.
    + exists self, price. split; assumption.
Defined.

(** X8. With [nu = 0] the reference characteristic function divides by
    [nu ** 2 = 0]: as soon as the quadrature evaluates the integrand once,
    [heston_Call] raises [ZeroDivisionError]. *)
Theorem heston_Call_zero_nu (q : quadrature) (self : roughHeston) (k u : R) :
  nu self = 0 -> quad_evals q <> 0%nat -> quad_next q 0 Infinity [] = Some u ->
  heston_Call q self k = Err ZeroDivisionError.
Proof.
  intros Hnu Hfuel Hnext. unfold heston_Call, quad.
  destruct (quad_evals q) as [|fuel]; [contradiction|].
  cbn [quad_loop]. rewrite Hnext.
  unfold heston_char_function, py_fdiv. rewrite Hnu.
  destruct (Req_dec_T (0 ^ 2) 0) as [_|Hne]; [reflexivity|].
  exfalso. apply Hne. ring.
Qed.

Lemma heston_Call_zero_nu_witness :
  exists self,
    init stirling_gamma 100 (<["nu" := 0]> notebook_params) 1 = Ok self /\
    heston_Call midpoint_rule self (- 0.1) = Err ZeroDivisionError.
Proof.
  destruct (init_ok stirling_gamma 100 (<["nu" := 0]> notebook_params) 1)
    as (self & Hinit & B).
  - lia.
  - lra.
  - repeat constructor; eexists; reflexivity.
  - change (param (<["nu" := 0]> notebook_params) "alpha") with 0.6. lra.
  - exists self. split; [exact Hinit|].
    apply (heston_Call_zero_nu midpoint_rule self (- 0.1) (0 + 1)).
    + destruct (built_params _ _ _ _ _ B) as (_ & _ & _ & _ & -> & _). reflexivity.
    + discriminate.
    + reflexivity.
Defined.

(** ** Calls do not depend on earlier calls *)

Lemma fill_h_same (self s : roughHeston) (a : C) :
  same_but_h_hat self s -> fill_h s a = fill_h self a.
Proof. intros [->|[h ->]]; reflexivity. Qed.

Lemma rHeston_char_function_same (self s : roughHeston) (a : C) :
  same_but_h_hat self s ->
  rHeston_char_function s a = rHeston_char_function self a.
Proof.
  intros Hs. unfold rHeston_char_function. now rewrite (fill_h_same self s a Hs).
Qed.

(** When the integrand returns the same from two states, [quad] returns
    the same value from both. *)
Lemma quad_loop_value {St : Type} (q : quadrature)
    (func : R -> St -> result (R * St)) (lo : R) (hi : bound)
    (fuel : nat) (seen : list (R * R)) (s s' : St) :
  (forall u, func u s = func u s') ->
  value_of (quad_loop q func lo hi fuel seen s)
  = value_of (quad_loop q func lo hi fuel seen s').
Proof.
  intros Hfunc. destruct fuel as [|fuel]; cbn [quad_loop]; [reflexivity|].
  destruct (quad_next q lo hi seen) as [u|]; [|reflexivity].
  now rewrite Hfunc.
Qed.

Lemma rHeston_Call_same (q : quadrature) (self s : roughHeston) (k upLim : R) :
  same_but_h_hat self s ->
  value_of (rHeston_Call q s k upLim) = value_of (rHeston_Call q self k upLim).
Proof.
  intros Hs. unfold rHeston_Call, quad.
  assert (HS0 : S0 s = S0 self) by (destruct Hs as [->|[h ->]]; reflexivity).
  rewrite HS0.
  match goal with |- context [quad_loop q ?f ?lo ?hi ?fu ?seen s] =>
    pose proof (quad_loop_value q f lo hi fu seen s self) as Hq;
    destruct (quad_loop q f lo hi fu seen s) as [[[v e] st]|err];
    destruct (quad_loop q f lo hi fu seen self) as [[[v' e'] st']|err']
  end; cbn [value_of bind fst snd] in *;
  (assert (Hsame : forall u : R,
     (let! r := rHeston_char_function s (RtoC u - RtoC 0.5 * Ci)%C in
      Ok (Re (Cexp (- Ci * RtoC u * RtoC k) * r.1)%C / (u ^ 2 + 0.25), r.2))
     = (let! r := rHeston_char_function self (RtoC u - RtoC 0.5 * Ci)%C in
        Ok (Re (Cexp (- Ci * RtoC u * RtoC k) * r.1)%C / (u ^ 2 + 0.25), r.2)))
     by (intros u; now rewrite (rHeston_char_function_same self s _ Hs)));
  specialize (Hq Hsame); try discriminate; try reflexivity.
  - injection Hq as Hv He. now subst.
  - injection Hq as ->. reflexivity.
Qed.

Lemma run_calls_frame (gamma : R -> R) (q : quadrature) (nb : Z)
    (p : gmap string R) (T0 : R) (self : roughHeston) (cs : list call) :
  (1 <= nb)%Z -> built gamma nb p T0 self -> nu self <> 0 ->
  forall s, same_but_h_hat self s ->
    exists s', run_calls q s cs = Ok s' /\ same_but_h_hat self s'.
Proof.
  intros Hnb B Hnu.
  induction cs as [|c cs IH]; intros s Hs; cbn [run_calls for_in].
  - exists s. split; [reflexivity | exact Hs].
  - destruct (run_call_frame gamma q nb p T0 self s c Hnb B Hnu Hs)
      as (s1 & -> & Hs1).
    cbn [bind]. apply IH. exact Hs1.
Qed.

(** X9. What an engine returns does not depend on the calls made before:
    after any sequence of calls, [fill_h], [rHeston_char_function] and
    [rHeston_Call] give the values they give on the freshly built engine
    (the array left in [h_hat] by an earlier call is never read). *)
Theorem calls_are_history_independent (gamma : R -> R) (q : quadrature)
    (nb : Z) (p : gmap string R) (T0 : R) :
  (1 <= nb)%Z -> 0 <= T0 -> complete p -> 0 <= param p "alpha" ->
  param p "nu" <> 0 ->
  exists self, init gamma nb p T0 = Ok self /\
    forall cs : list call,
      exists s, run_calls q self cs = Ok s /\
        (forall a, fill_h s a = fill_h self a) /\
        (forall a, value_of (rHeston_char_function s a)
                   = value_of (rHeston_char_function self a)) /\
        (forall k upLim, value_of (rHeston_Call q s k upLim)
                         = value_of (rHeston_Call q self k upLim)).
Proof.
  intros Hnb HT Hp Ha Hnu.
  destruct (init_ok gamma nb p T0 Hnb HT Hp Ha) as (self & Hinit & B).
  exists self. split; [exact Hinit|]. intros cs.
  assert (Hnu' : nu self <> 0).
  { destruct (built_params _ _ _ _ _ B) as (_ & _ & _ & _ & -> & _). exact Hnu. }
  destruct (run_calls_frame gamma q nb p T0 self cs Hnb B Hnu' self)
    as (s & Hrun & Hs); [now left|].
  exists s. split; [exact Hrun|]. split; [|split].
  - intros a. exact (fill_h_same self s a Hs).
  - intros a. now rewrite (rHeston_char_function_same self s a Hs).
  - intros k upLim. exact (rHeston_Call_same q self s k upLim Hs).
Qed.

Lemma calls_are_history_independent_witness :
  exists self s,
    init stirling_gamma 100 notebook_params 1 = Ok self /\
    run_calls midpoint_rule self
      [CallCharFunction (mkC 3 (- 0.5)); CallRoughPrice 0.2 5] = Ok s /\
    value_of (rHeston_Call midpoint_rule s (- 0.1) 5)
    = value_of (rHeston_Call midpoint_rule self (- 0.1) 5).
Proof.
  destruct (calls_are_history_independent stirling_gamma midpoint_rule 100
              notebook_params 1) as (self & Hinit & Hcs).
  - lia.
  - lra.
  - exact notebook_params_complete.
  - rewrite notebook_alpha. lra.
  - change (param notebook_params "nu") with 0.3. lra.
  - destruct (Hcs [CallCharFunction (mkC 3 (- 0.5)); CallRoughPrice 0.2 5])
      as (s & Hrun & _ & _ & Hprice).
    exists self, s. repeat split; [exact Hinit | exact Hrun | apply Hprice].
Defined.

(** ** Implied volatility *)

Lemma bisect_loop_more_fuel (f : R -> R) (fa xtol rtol : R) (n : nat) :
  forall (xa dm v : R) (m : nat), (n <= m)%nat ->
    bisect_loop f fa xtol rtol n xa dm = Ok v ->
    bisect_loop f fa xtol rtol m xa dm = Ok v.
Proof.
  induction n as [|n IH]; intros xa dm v m Hm Hrun; [discriminate|].
  destruct m as [|m]; [lia|].
  cbn [bisect_loop] in *. cbv zeta in *.
  destruct (Req_dec_T (f (xa + dm * 0.5)) 0); [exact Hrun|].
  destruct (Rlt_dec (Rabs (dm * 0.5)) (xtol + rtol * Rabs (xa + dm * 0.5)));
    [exact Hrun|].
  apply (IH _ _ _ m) in Hrun; [exact Hrun | lia].
Qed.

(** From the bracket [0.0001, 3] with scipy's [xtol], 41 halvings bring
    the step under the tolerance: any iteration limit from 41 on gives
    the same outcome. *)
Lemma bisect_vol_interval_budget (f : R -> R) (maxiter : nat) :
  (41 <= maxiter)%nat ->
  bisect f 0.0001 3 bisect_xtol 1e-15 maxiter
  = bisect f 0.0001 3 bisect_xtol 1e-15 41.
Proof.
  intros Hm. unfold bisect.
  destruct (Rle_dec bisect_xtol 0); [reflexivity|].
  destruct (Rlt_dec 1e-15 bisect_rtol_min); [reflexivity|].
  destruct (Rlt_dec 0 (f 0.0001 * f 3)) as [|Hsign]; [reflexivity|].
  destruct (Req_dec_T (f 0.0001) 0) as [|Ha]; [reflexivity|].
  destruct (Req_dec_T (f 3) 0) as [|Hb]; [reflexivity|].
  destruct (bisect_loop_converges f (f 0.0001) bisect_xtol 1e-15 0.0001 3
              ltac:(lra) 40 0.0001 (3 - 0.0001)) as (v & Hv & _).
  - unfold bisect_bracket. repeat split; try lra.
    + nra.
    + replace (0.0001 + (3 - 0.0001)) with 3 by lra.
      destruct (Rtotal_order (f 3 * f 0.0001) 0) as [Hlt|[Heq|Hgt]];
        [exact Hlt | | lra].
      apply Rmult_integral in Heq. tauto.
  - unfold bisect_xtol.
    replace (2 ^ 41) with 2199023255552 by ring. lra.
  - rewrite Hv. exact (bisect_loop_more_fuel _ _ _ _ 41 _ _ v maxiter Hm Hv).
Qed.

(** X10. [impliedVol] never exhausts scipy's iteration limit: for a
    positive spot, strike and maturity it either raises ValueError or
    returns a volatility in [0.0001, 3], and its outcome is the one
    [bisect] reaches with any limit of at least 41 iterations (the default
    is 100), so it is never RuntimeError. *)
Theorem impliedVol_iteration_budget (norm_cdf : R -> R) (S K T r price : R)
    (maxiter : nat) :
  0 < S -> 0 < K -> 0 < T -> (41 <= maxiter)%nat ->
  bisect (fun vol => smileMin norm_cdf vol S K T r price) 0.0001 3
         bisect_xtol 1e-15 maxiter
  = impliedVol norm_cdf S K T r price /\
  (impliedVol norm_cdf S K T r price = Err ValueError \/
   exists v, impliedVol norm_cdf S K T r price = Ok v /\ 0.0001 <= v <= 3).
Proof.
  intros _ _ _ Hm. unfold impliedVol. split.
  - rewrite (bisect_vol_interval_budget _ maxiter Hm).
    symmetry. apply bisect_vol_interval_budget. unfold bisect_maxiter. lia.
  - set (f := fun vol => smileMin norm_cdf vol S K T r price).
    destruct (bisect_on_vol_interval f) as [Herr Hok].
    destruct (Rlt_dec 0 (f 0.0001 * f 3)) as [Hpos|Hneg].
    + left. now apply Herr.
    + right. destruct Hok as (v & Hv & Hin & _); [lra|].
      exists v. split; [exact Hv | exact Hin].
Qed.

Lemma impliedVol_iteration_budget_witness :
  bisect (fun vol => smileMin logistic_cdf vol 1 1 1 0 0.3) 0.0001 3
         bisect_xtol 1e-15 41
  = impliedVol logistic_cdf 1 1 1 0 0.3.
Proof.
  destruct (impliedVol_iteration_budget logistic_cdf 1 1 1 0 0.3 41) as [H _].
  - lra.
  - lra.
  - lra.
  - lia.
  - exact H.
Defined.

(** X11. A call price above the spot cannot be inverted: for a cdf with
    values in [0, 1] and a positive spot, strike and maturity, every
    Black-Scholes call price at a positive volatility is at most the
    spot, and [impliedVol] raises ValueError for any [price > S]. *)
Theorem impliedVol_price_above_spot (norm_cdf : R -> R) (S K T r price : R) :
  (forall x, 0 <= norm_cdf x <= 1) -> 0 < S -> 0 < K -> 0 < T -> S < price ->
  (forall sigma, 0 < sigma ->
     BlackScholesCallPut norm_cdf S K T sigma r 1 <= S) /\
  impliedVol norm_cdf S K T r price = Err ValueError.
Proof.
  intros Hcdf HS HK _ Hprice.
  assert (Hle : forall sigma, 0 < sigma ->
                  BlackScholesCallPut norm_cdf S K T sigma r 1 <= S).
  { intros sigma _. unfold BlackScholesCallPut. cbv zeta.
    set (d1 := (ln (S / K) + (r + 0.5 * sigma ^ 2) * T) / (sigma * sqrt T)).
    pose proof (Hcdf (1 * d1)) as H1.
    pose proof (Hcdf (1 * (d1 - sigma * sqrt T))) as H2.
    pose proof (exp_pos (- r * T)) as He.
    set (N1 := norm_cdf (1 * d1)) in *.
    set (N2 := norm_cdf (1 * (d1 - sigma * sqrt T))) in *.
    set (E := exp (- r * T)) in *.
    assert (0 <= K * E * N2).
    { apply Rmult_le_pos; [apply Rmult_le_pos|]; lra. }
    assert (S * N1 <= S) by nra.
    lra. }
  split; [exact Hle|].
  unfold impliedVol.
  destruct (bisect_on_vol_interval
              (fun vol => smileMin norm_cdf vol S K T r price)) as [Herr _].
  apply Herr. unfold smileMin.
  pose proof (Hle 0.0001 ltac:(lra)). pose proof (Hle 3 ltac:(lra)). nra.
Qed.

Lemma impliedVol_price_above_spot_witness :
  impliedVol logistic_cdf 1 1 1 0 1.5 = Err ValueError.
Proof.
  destruct (impliedVol_price_above_spot logistic_cdf 1 1 1 0 1.5) as [_ H].
  - intros x. pose proof (logistic_cdf_bounds x). lra.
  - lra.
  - lra.
  - lra.
  - lra.
  - exact H.
Defined.

(** ** Normalisation of the rough characteristic function *)

Lemma Csum_zero (f : nat -> C) (k : nat) :
  (forall j, (j < k)%nat -> f j = RtoC 0) -> Csum f k = RtoC 0.
Proof.
  intros H. induction k as [|k IH]; [reflexivity|].
  rewrite Csum_S, IH, H by (intros; try apply H; lia). apply Cadd_0_l.
Qed.

Lemma Cmul_0_r (z : C) : (z * RtoC 0 = RtoC 0)%C.
Proof. apply C_ext; cbn [Re Im Cmul RtoC]; ring. Qed.

(** The Riccati right-hand side vanishes at [x = 0] exactly when
    [a (a + i) = 0]: at [a = 0] and at [a = -i]. *)
Lemma F_zero_at_origin (self : roughHeston) (a : C) :
  a = RtoC 0 \/ a = (- Ci)%C -> F self a (RtoC 0) = RtoC 0.
Proof.
  intros [->| ->]; unfold F, Cadd, Csub, Cmul, Copp, RtoC, Ci; cbn [Re Im];
    f_equal; replace 0.5 with (1 / 2) by lra; field.
Qed.

(** When [Fa 0 = 0] the scheme keeps [h] at zero. *)
Lemma scheme_stays_zero (A B : matrix) (Fa : C -> C) (h : list C) (m : nat) :
  Fa (RtoC 0) = RtoC 0 ->
  h !! 0%nat = Some (RtoC 0) ->
  (forall k, (1 <= k <= m)%nat -> h !! k = Some (scheme_step A B Fa h k)) ->
  forall k, (k <= m)%nat -> h !! k = Some (RtoC 0).
Proof.
  intros HF H0 Hrec k. induction k as [k IH] using lt_wf_ind. intros Hk.
  destruct k as [|k]; [exact H0|].
  rewrite (Hrec (S k)) by lia. f_equal. unfold scheme_step.
  assert (Hbelow : forall j, (j < S k)%nat -> Fa (vec_at h j) = RtoC 0).
  { intros j Hj. unfold vec_at. rewrite (IH j) by lia. exact HF. }
  rewrite !Csum_zero; [| intros j Hj; now rewrite Hbelow, Cmul_0_r ..].
  now rewrite HF, Cmul_0_r, Cadd_0_l.
Qed.

(** X12. The rough characteristic function is exactly normalised by the
    scheme: at [a = 0] (total mass) and at [a = -i] (the martingale
    condition [E exp(X_T) = 1]) the solver leaves [h_hat] identically zero
    and [rHeston_char_function] returns 1, for every number of steps and
    every parameter set with [0 <= alpha < 1]. *)
Theorem rHeston_char_function_normalised (gamma : R -> R) (nb : Z)
    (p : gmap string R) (T0 : R) (a : C) :
  (1 <= nb)%Z -> 0 <= T0 -> complete p ->
  0 <= param p "alpha" -> param p "alpha" < 1 ->
  a = RtoC 0 \/ a = (- Ci)%C ->
  exists self h,
    init gamma nb p T0 = Ok self /\
    rHeston_char_function self a = Ok (mkC 1 0, set_h_hat h self) /\
    length h = Z.to_nat (nb + 1) /\
    forall k, (k <= Z.to_nat nb)%nat -> h !! k = Some (RtoC 0).
Proof.
  intros Hnb HT Hp Ha Ha1 Hcase.
  destruct (init_ok gamma nb p T0 Hnb HT Hp Ha) as (self & Hinit & B).
  destruct (fill_h_built gamma nb p T0 self self a Hnb B ltac:(now left))
    as (h & Hrun & Hlen & H0 & Hrec).
  pose proof (scheme_stays_zero _ _ _ h (Z.to_nat nb)
                (F_zero_at_origin self a Hcase) H0 Hrec) as Hzero.
  assert (Hvec : forall k, (k <= Z.to_nat nb)%nat -> vec_at h k = RtoC 0).
  { intros k Hk. unfold vec_at. now rewrite (Hzero k Hk). }
  exists self, h. split; [exact Hinit|]. split; [|split; assumption].
  rewrite (rHeston_char_function_ok gamma nb p T0 self h a Hnb B Hrun)
    by (rewrite (built_param_alpha _ _ _ _ _ B); lra).
  do 2 f_equal. rewrite <- Cexp_0. f_equal.
  unfold trapezoid_integral, fractional_integral.
  rewrite !Csum_zero.
  - apply C_ext; cbn [Re Im Cadd Csub Cmul Copp RtoC]; ring.
  - intros j Hj. rewrite Hvec by lia. apply Cmul_0_r.
  - intros j Hj. rewrite !Hvec by lia.
    generalize (T0 / IZR nb). intros d.
    apply C_ext; unfold Cdiv, Cnorm2; cbn [Re Im Cadd Cmul RtoC]; field.
Qed.

Lemma rHeston_char_function_normalised_witness :
  exists self h,
    init stirling_gamma 100 notebook_params 1 = Ok self /\
    rHeston_char_function self (- Ci)%C = Ok (mkC 1 0, set_h_hat h self).
Proof.
  destruct (rHeston_char_function_normalised stirling_gamma 100 notebook_params 1
              (- Ci)%C) as (self & h & Hinit & Hval & _).
  - lia.
  - lra.
  - exact notebook_params_complete.
  - rewrite notebook_alpha. lra.
  - rewrite notebook_alpha. lra.
  - now right.
  - exists self, h. split; [exact Hinit | exact Hval].
Defined.

(** ** The corrector weights integrate constants *)

Lemma Rsum_first (f : nat -> R) (m : nat) :
  Rsum f (S m) = f 0%nat + Rsum (fun j => f (S j)) m.
Proof.
  induction m as [|m IH].
  - unfold Rsum. cbn [seq map fold_right]. ring.
  - rewrite Rsum_S, IH, Rsum_S. ring.
Qed.

Lemma float_pow_succ_exponent (x y : R) :
  0 < x -> float_pow x (y + 1) = x * float_pow x y.
Proof.
  intros Hx. unfold float_pow. destruct (Rlt_dec 0 x); [|contradiction].
  rewrite Rpower_plus, Rpower_1 by exact Hx. ring.
Qed.

Lemma float_pow_1_l (y : R) : float_pow 1 y = 1.
Proof.
  unfold float_pow. destruct (Rlt_dec 0 1); [|lra].
  unfold Rpower. rewrite ln_1, Rmult_0_r. apply exp_0.
Qed.

(** Column [k] of the corrector weights, diagonal included, telescopes
    to [C_a (alpha + 1) k^alpha]. *)
Lemma a_weight_column_sum (gamma : R -> R) (dt alpha : R) (k : Z) :
  (1 <= k)%Z -> 0 <= alpha ->
  Rsum (fun j => a_weight gamma dt alpha (Z.of_nat j) k) (S (Z.to_nat k))
  = float_pow dt alpha / gamma (alpha + 2)
    * ((alpha + 1) * float_pow (IZR k) alpha).
Proof.
  intros Hk Ha.
  destruct (Z.to_nat k) as [|m] eqn:Hm; [lia|].
  assert (Hkm : (k - Z.of_nat m = 1)%Z) by lia.
  rewrite Rsum_S, Rsum_first.
  set (c := float_pow dt alpha / gamma (alpha + 2)).
  set (d := fun i : Z => float_pow (IZR (i + 1)) (alpha + 1)
                         - float_pow (IZR i) (alpha + 1)).
  rewrite (Rsum_ext _ (fun j =>
             c * (d (k - 1 - Z.of_nat j)%Z - d (k - 1 - Z.of_nat j - 1)%Z))).
  - rewrite (Rsum_telescope c d (k - 1) m).
    replace (k - 1 - Z.of_nat m)%Z with 0%Z by lia.
    unfold d, a_weight. fold c.
    replace (k - 1 + 1)%Z with k by lia.
    change (IZR (0 + 1)) with 1. change (IZR 0) with 0.
    rewrite float_pow_1_l, (float_pow_0_l (alpha + 1)) by lra.
    rewrite (float_pow_succ_exponent (IZR k) alpha)
      by (apply IZR_lt; lia).
    change (Z.of_nat 0) with 0%Z.
    replace (Z.of_nat (S m)) with k by lia.
    Zcases. ring.
  - intros j Hj. unfold d, a_weight. fold c. Zcases.
    replace (k + 1 - Z.of_nat (S j))%Z with (k - 1 - Z.of_nat j + 1)%Z by lia.
    replace (k - Z.of_nat (S j))%Z with (k - 1 - Z.of_nat j)%Z by lia.
    replace (k - 1 - Z.of_nat (S j))%Z with (k - 1 - Z.of_nat j - 1)%Z by lia.
    replace (k - 1 - Z.of_nat j - 1 + 1)%Z with (k - 1 - Z.of_nat j)%Z by lia.
    ring.
Qed.

(** X13. The corrector weights integrate a constant exactly: for every
    [k >= 1] the column sum [sum_{j<=k} a_{j,k}] of the matrix the
    constructor stores is [(alpha + 1) C_a k^alpha] with
    [C_a = dt^alpha / Gamma(alpha+2)], that is [t_k^alpha / Gamma(alpha+1)]
    when [Gamma(alpha+2) = (alpha+1) Gamma(alpha+1)]. *)
Theorem corrector_column_sum (gamma : R -> R) (nb : Z) (p : gmap string R)
    (T0 : R) :
  (1 <= nb)%Z -> 0 <= T0 -> complete p -> 0 <= param p "alpha" ->
  exists self, init gamma nb p T0 = Ok self /\
    let dt := T0 / IZR nb in
    let alpha := param p "alpha" in
    forall k, (1 <= k <= nb)%Z ->
      Rsum (fun j => mat_at (a_ self) j (Z.to_nat k)) (S (Z.to_nat k))
      = float_pow dt alpha / gamma (alpha + 2)
        * ((alpha + 1) * float_pow (IZR k) alpha).
Proof.
  intros Hnb HT Hp Ha.
  destruct (init_ok gamma nb p T0 Hnb HT Hp Ha) as (self & Hinit & B).
  exists self. split; [exact Hinit|]. cbv zeta. intros k Hk.
  pose proof (built_a _ _ _ _ _ B) as HA.
  rewrite (built_dt _ _ _ _ _ B), (built_param_alpha _ _ _ _ _ B) in HA.
  rewrite <- (a_weight_column_sum gamma _ _ k) by (lia || exact Ha).
  apply Rsum_ext. intros j Hj.
  replace j with (Z.to_nat (Z.of_nat j)) at 1 by lia.
  apply (mat_is_at _ _ _ _ (Z.of_nat j) k HA); lia.
Qed.

Lemma corrector_column_sum_witness :
  exists self, init stirling_gamma 2 notebook_params 1 = Ok self /\
    Rsum (fun j => mat_at (a_ self) j 2) 3
    = float_pow (1 / 2) 0.6 / stirling_gamma (0.6 + 2)
      * ((0.6 + 1) * float_pow 2 0.6).
Proof.
  destruct (corrector_column_sum stirling_gamma 2 notebook_params 1)
    as (self & Hinit & Hk).
  - lia.
  - lra.
  - exact notebook_params_complete.
  - rewrite notebook_alpha. lra.
  - exists self. split; [exact Hinit|].
    pose proof (Hk 2%Z ltac:(lia)) as Hsum.
    rewrite notebook_alpha in Hsum. exact Hsum.
Defined.

(** ** The solver's sums before [fill_h] *)

(** X14. [h_hat] does not exist until [fill_h] has run: on a freshly
    built engine [h_P] and [sum_a] raise AttributeError for every column
    [1 <= k <= n] of the weight matrices, and return 0 (the empty sum)
    without touching [h_hat] for [k <= 0]. *)
Theorem sums_need_fill_h (gamma : R -> R) (nb : Z) (p : gmap string R)
    (T0 : R) (self : roughHeston) (a : C) (k : Z) :
  (1 <= nb)%Z -> built gamma nb p T0 self ->
  ((1 <= k <= nb)%Z ->
     h_P self a k = Err AttributeError /\ sum_a self a k = Err AttributeError) /\
  ((k <= 0)%Z -> h_P self a k = Ok (RtoC 0) /\ sum_a self a k = Ok (RtoC 0)).
Proof.
  intros Hnb B. split; intros Hk.
  - unfold h_P, sum_a. split; apply for_in_range_first_err; try lia.
    + rewrite (mat_is_get _ _ _ _ 0 k (built_b _ _ _ _ _ B)) by lia.
      cbn [bind]. unfold get_h_hat. now rewrite (built_h_hat _ _ _ _ _ B).
    + rewrite (mat_is_get _ _ _ _ 0 k (built_a _ _ _ _ _ B)) by lia.
      cbn [bind]. unfold get_h_hat. now rewrite (built_h_hat _ _ _ _ _ B).
  - unfold h_P, sum_a. now rewrite py_range_nil by lia.
Qed.

Lemma sums_need_fill_h_witness :
  exists self, init stirling_gamma 100 notebook_params 1 = Ok self /\
    h_P self (mkC 1 (- 0.5)) 1 = Err AttributeError /\
    sum_a self (mkC 1 (- 0.5)) 100 = Err AttributeError.
Proof.
  destruct (init_ok stirling_gamma 100 notebook_params 1) as (self & Hinit & B).
  - lia.
  - lra.
  - exact notebook_params_complete.
  - rewrite notebook_alpha. lra.
  - exists self. split; [exact Hinit|].
    pose proof (sums_need_fill_h stirling_gamma 100 notebook_params 1 self
                  (mkC 1 (- 0.5)) 1 ltac:(lia) B) as [H1 _].
    pose proof (sums_need_fill_h stirling_gamma 100 notebook_params 1 self
                  (mkC 1 (- 0.5)) 100 ltac:(lia) B) as [H100 _].
    split; [apply H1 | apply H100]; lia.
Defined.

(** ** Two runs of the solver side by side *)

Lemma Csum_hom (phi : C -> C) (f : nat -> C) (k : nat) :
  phi (RtoC 0) = RtoC 0 ->
  (forall z w, phi (z + w)%C = (phi z + phi w)%C) ->
  Csum (fun j => phi (f j)) k = phi (Csum f k).
Proof.
  intros H0 Hadd. induction k as [|k IH].
  - unfold Csum. cbn [seq map fold_right]. now rewrite H0.
  - now rewrite !Csum_S, IH, Hadd.
Qed.

(** Two arrays that satisfy the recursion with weights that agree and
    right-hand sides that commute with [phi] are related by [phi]
    entry by entry. *)
Lemma scheme_related (phi : C -> C) (A B A' B' : matrix) (Fa Fa' : C -> C)
    (h h' : list C) (m : nat) :
  phi (RtoC 0) = RtoC 0 ->
  (forall z w, phi (z + w)%C = (phi z + phi w)%C) ->
  (forall r z, phi (RtoC r * z)%C = (RtoC r * phi z)%C) ->
  (forall j k, (j <= k <= m)%nat -> mat_at A' j k = mat_at A j k) ->
  (forall j k, (j < k <= m)%nat -> mat_at B' j k = mat_at B j k) ->
  (forall x, Fa' (phi x) = phi (Fa x)) ->
  h !! 0%nat = Some (RtoC 0) -> h' !! 0%nat = Some (RtoC 0) ->
  (forall k, (1 <= k <= m)%nat -> h !! k = Some (scheme_step A B Fa h k)) ->
  (forall k, (1 <= k <= m)%nat -> h' !! k = Some (scheme_step A' B' Fa' h' k)) ->
  forall k, (k <= m)%nat -> vec_at h' k = phi (vec_at h k).
Proof.
  intros H0 Hadd Hmul HA HB HF Hh0 Hh0' Hrec Hrec' k.
  induction k as [k IH] using lt_wf_ind. intros Hk.
  destruct k as [|k].
  - unfold vec_at. now rewrite Hh0, Hh0', H0.
  - unfold vec_at at 1 2. rewrite (Hrec (S k)), (Hrec' (S k)) by lia.
    unfold scheme_step.
    rewrite (Csum_ext (fun j => RtoC (mat_at B' j (S k)) * Fa' (vec_at h' j))%C
               (fun j => phi (RtoC (mat_at B j (S k)) * Fa (vec_at h j))%C)).
    2: { intros j Hj. now rewrite IH, HB, HF, Hmul by lia. }
    rewrite (Csum_ext (fun j => RtoC (mat_at A' j (S k)) * Fa' (vec_at h' j))%C
               (fun j => phi (RtoC (mat_at A j (S k)) * Fa (vec_at h j))%C)).
    2: { intros j Hj. now rewrite IH, HA, HF, Hmul by lia. }
    rewrite !Csum_hom by assumption.
    now rewrite HA, HF, Hadd, Hmul by lia.
Qed.

(** ** Hermitian symmetry of the rough characteristic function *)

Lemma Cconj_add (z w : C) : Cconj (z + w)%C = (Cconj z + Cconj w)%C.
Proof. apply C_ext; cbn [Re Im Cconj Cadd]; ring. Qed.

Lemma Cconj_mul (z w : C) : Cconj (z * w)%C = (Cconj z * Cconj w)%C.
Proof. apply C_ext; cbn [Re Im Cconj Cmul]; ring. Qed.

Lemma Cconj_RtoC (r : R) : Cconj (RtoC r) = RtoC r.
Proof. apply C_ext; cbn [Re Im Cconj RtoC]; ring. Qed.

Lemma Cconj_div_real (z : C) (r : R) :
  Cconj (z / RtoC r)%C = (Cconj z / RtoC r)%C.
Proof.
  apply C_ext; unfold Cdiv, Cnorm2; cbn [Re Im Cconj RtoC]; unfold Rdiv; ring.
Qed.

Lemma Cconj_exp (z : C) : Cconj (Cexp z) = Cexp (Cconj z).
Proof.
  apply C_ext; unfold Cexp; cbn [Re Im Cconj].
  - now rewrite cos_neg.
  - rewrite sin_neg. ring.
Qed.

Lemma F_conj (self : roughHeston) (a x : C) :
  F self (- Cconj a)%C (Cconj x) = Cconj (F self a x).
Proof.
  destruct a as [ar ai], x as [xr xi].
  unfold F, Cconj, Cadd, Csub, Cmul, Copp, RtoC, Ci; cbn [Re Im].
  f_equal; replace 0.5 with (1 / 2) by lra; field.
Qed.

(** X15. Hermitian symmetry: on every engine the two Fourier arguments
    [a] and [- conj a] give complex-conjugate arrays [h_hat] and
    complex-conjugate values of [rHeston_char_function], as for the
    characteristic function of a real random variable ([0 <= alpha < 1],
    where the powers the code takes are finite). *)
Theorem rHeston_char_function_hermitian (gamma : R -> R) (nb : Z)
    (p : gmap string R) (T0 : R) (a : C) :
  (1 <= nb)%Z -> 0 <= T0 -> complete p ->
  0 <= param p "alpha" -> param p "alpha" < 1 ->
  exists self h h' v,
    init gamma nb p T0 = Ok self /\
    rHeston_char_function self a = Ok (v, set_h_hat h self) /\
    rHeston_char_function self (- Cconj a)%C
    = Ok (Cconj v, set_h_hat h' self) /\
    forall k, (k <= Z.to_nat nb)%nat -> vec_at h' k = Cconj (vec_at h k).
Proof.
  intros Hnb HT Hp Ha _.
  destruct (init_ok gamma nb p T0 Hnb HT Hp Ha) as (self & Hinit & B).
  destruct (rHeston_char_function_run gamma nb p T0 self self a Hnb B
              ltac:(now left)) as (h & Hfill & Hval).
  destruct (rHeston_char_function_run gamma nb p T0 self self (- Cconj a)%C
              Hnb B ltac:(now left)) as (h' & Hfill' & Hval').
  destruct (fill_h_built gamma nb p T0 self self a Hnb B ltac:(now left))
    as (h1 & Hrun & _ & H0 & Hrec).
  destruct (fill_h_built gamma nb p T0 self self (- Cconj a)%C Hnb B
              ltac:(now left)) as (h1' & Hrun' & _ & H0' & Hrec').
  assert (h1 = h) as ->.
  { rewrite Hfill in Hrun. injection Hrun as Hrun. congruence. }
  assert (h1' = h') as ->.
  { rewrite Hfill' in Hrun'. injection Hrun' as Hrun'. congruence. }
  assert (Hconj : forall k, (k <= Z.to_nat nb)%nat ->
                    vec_at h' k = Cconj (vec_at h k)).
  { apply (scheme_related Cconj (a_ self) (b_ self) (a_ self) (b_ self)
             (F self a) (F self (- Cconj a)%C)); try assumption; try reflexivity.
    - apply Cconj_RtoC.
    - apply Cconj_add.
    - intros r z. now rewrite Cconj_mul, Cconj_RtoC.
    - intros x. apply F_conj. }
  exists self, h, h'. eexists.
  split; [exact Hinit|]. split; [exact Hval|]. split; [|exact Hconj].
  rewrite Hval'. do 2 f_equal.
  rewrite Cconj_exp. f_equal.
  rewrite Cconj_add, !Cconj_mul, Cconj_div_real, Cconj_mul, !Cconj_RtoC.
  rewrite <- !(Csum_hom Cconj) by (apply Cconj_RtoC || apply Cconj_add).
  f_equal; f_equal.
  - apply Csum_ext. intros i Hi.
    now rewrite Cconj_div_real, Cconj_mul, Cconj_add, Cconj_RtoC, !Hconj by lia.
  - f_equal. f_equal. apply Csum_ext. intros i Hi.
    now rewrite Cconj_mul, Cconj_RtoC, Hconj by lia.
Qed.

Lemma rHeston_char_function_hermitian_witness :
  exists self h h' v,
    init stirling_gamma 100 notebook_params 1 = Ok self /\
    rHeston_char_function self (mkC 3 (- 0.5)) = Ok (v, set_h_hat h self) /\
    rHeston_char_function self (- Cconj (mkC 3 (- 0.5)))%C
    = Ok (Cconj v, set_h_hat h' self).
Proof.
  destruct (rHeston_char_function_hermitian stirling_gamma 100 notebook_params
              1 (mkC 3 (- 0.5))) as (self & h & h' & v & Hinit & H1 & H2 & _).
  - lia.
  - lra.
  - exact notebook_params_complete.
  - rewrite notebook_alpha. lra.
  - rewrite notebook_alpha. lra.
  - exists self, h, h', v. repeat split; assumption.
Defined.

(** ** The rough price scales with the spot *)

(** [quad] run on two objects whose integrands return the same values. *)
Lemma quad_loop_rel {St1 St2 : Type} (Rel : St1 -> St2 -> Prop) (q : quadrature)
    (f1 : R -> St1 -> result (R * St1)) (f2 : R -> St2 -> result (R * St2))
    (lo : R) (hi : bound) :
  (forall u s1 s2, Rel s1 s2 ->
     exists y s1' s2', f1 u s1 = Ok (y, s1') /\ f2 u s2 = Ok (y, s2') /\
                       Rel s1' s2') ->
  forall fuel seen s1 s2, Rel s1 s2 ->
    exists res s1' s2',
      quad_loop q f1 lo hi fuel seen s1 = Ok (res, s1') /\
      quad_loop q f2 lo hi fuel seen s2 = Ok (res, s2') /\ Rel s1' s2'.
Proof.
  intros Hf fuel. induction fuel as [|fuel IH]; intros seen s1 s2 Hs;
    cbn [quad_loop].
  - eexists. exists s1, s2. repeat split; [reflexivity .. | exact Hs].
  - destruct (quad_next q lo hi seen) as [u|].
    + destruct (Hf u s1 s2 Hs) as (y & s1' & s2' & -> & -> & Hs').
      cbn [bind fst snd]. apply IH. exact Hs'.
    + eexists. exists s1, s2. repeat split; [reflexivity .. | exact Hs].
Qed.

(** Two engines built on the same grid with the same model parameters
    (the spot apart) have the same rough characteristic function. *)
Lemma rHeston_char_function_spot_free (gamma : R -> R) (nb : Z)
    (p1 p2 : gmap string R) (T0 : R) (self1 self2 s1 s2 : roughHeston) (a : C) :
  (1 <= nb)%Z -> built gamma nb p1 T0 self1 -> built gamma nb p2 T0 self2 ->
  kappa self2 = kappa self1 -> nu self2 = nu self1 ->
  theta self2 = theta self1 -> alpha self2 = alpha self1 ->
  V0 self2 = V0 self1 -> rho self2 = rho self1 ->
  same_but_h_hat self1 s1 -> same_but_h_hat self2 s2 ->
  exists v h1 h2,
    rHeston_char_function s1 a = Ok (v, set_h_hat h1 self1) /\
    rHeston_char_function s2 a = Ok (v, set_h_hat h2 self2).
Proof.
  intros Hnb B1 B2 Hka Hnu Hth Hal HV Hrho Hs1 Hs2.
  destruct (rHeston_char_function_run gamma nb p1 T0 self1 s1 a Hnb B1 Hs1)
    as (h1 & Hfill1 & Hval1).
  destruct (rHeston_char_function_run gamma nb p2 T0 self2 s2 a Hnb B2 Hs2)
    as (h2 & Hfill2 & Hval2).
  destruct (fill_h_built gamma nb p1 T0 self1 s1 a Hnb B1 Hs1)
    as (h1' & Hrun1 & _ & H01 & Hrec1).
  destruct (fill_h_built gamma nb p2 T0 self2 s2 a Hnb B2 Hs2)
    as (h2' & Hrun2 & _ & H02 & Hrec2).
  assert (h1' = h1) as ->.
  { rewrite Hfill1 in Hrun1. injection Hrun1 as Hrun1. congruence. }
  assert (h2' = h2) as ->.
  { rewrite Hfill2 in Hrun2. injection Hrun2 as Hrun2. congruence. }
  pose proof (built_a _ _ _ _ _ B1) as HA1.
  pose proof (built_a _ _ _ _ _ B2) as HA2.
  pose proof (built_b _ _ _ _ _ B1) as HB1.
  pose proof (built_b _ _ _ _ _ B2) as HB2.
  rewrite (built_dt _ _ _ _ _ B1) in HA1, HB1.
  rewrite (built_dt _ _ _ _ _ B2), Hal in HA2, HB2.
  assert (Hvec : forall k, (k <= Z.to_nat nb)%nat -> vec_at h2 k = vec_at h1 k).
  { apply (scheme_related (fun z => z) (a_ self1) (b_ self1) (a_ self2)
             (b_ self2) (F self1 a) (F self2 a)); try assumption;
      try reflexivity.
    - intros j k Hjk.
      replace j with (Z.to_nat (Z.of_nat j)) by lia.
      replace k with (Z.to_nat (Z.of_nat k)) by lia.
      rewrite (mat_is_at _ _ _ _ _ _ HA1), (mat_is_at _ _ _ _ _ _ HA2) by lia.
      reflexivity.
    - intros j k Hjk.
      replace j with (Z.to_nat (Z.of_nat j)) by lia.
      replace k with (Z.to_nat (Z.of_nat k)) by lia.
      rewrite (mat_is_at _ _ _ _ _ _ HB1), (mat_is_at _ _ _ _ _ _ HB2) by lia.
      reflexivity.
    - intros x. unfold F. now rewrite Hka, Hrho, Hnu. }
  eexists. exists h1, h2. split; [exact Hval1|].
  rewrite Hval2, Hka, Hth, HV, Hal.
  rewrite (built_frac_bar _ _ _ _ _ B2), Hal, <- (built_frac_bar _ _ _ _ _ B1).
  do 3 f_equal. f_equal; f_equal.
  - apply Csum_ext. intros i Hi. now rewrite !Hvec by lia.
  - f_equal. f_equal. apply Csum_ext. intros i Hi. now rewrite Hvec by lia.
Qed.

Lemma complete_insert (p : gmap string R) (key : string) (x : R) :
  complete p -> complete (<[key := x]> p).
Proof.
  unfold complete. intros Hp. eapply Forall_impl; [exact Hp|].
  intros key' Hkey. cbv beta in *. rewrite lookup_insert_is_Some.
  destruct (decide (key = key')); [now left | now right].
Qed.

Lemma param_insert_ne (p : gmap string R) (key key' : string) (x : R) :
  key <> key' -> param (<[key := x]> p) key' = param p key'.
Proof. intros Hne. unfold param. now rewrite lookup_insert_ne. Qed.

Lemma param_insert (p : gmap string R) (key : string) (x : R) :
  param (<[key := x]> p) key = x.
Proof. unfold param. now rewrite lookup_insert_eq. Qed.

(** X16. The rough price is homogeneous of degree 1 in the spot: with the
    other parameters, the grid, the log-moneyness [k] and the quadrature
    fixed, an engine built with [S0 = s >= 0] prices at [s] times the
    price of the engine built with [S0 = 1] (the characteristic function
    does not read [S0]). *)
Theorem rHeston_Call_scales_with_spot (gamma : R -> R) (q : quadrature)
    (nb : Z) (p : gmap string R) (T0 k upLim s : R) :
  (1 <= nb)%Z -> 0 <= T0 -> complete p ->
  0 <= param p "alpha" -> param p "alpha" < 1 -> 0 <= s ->
  exists unit_engine engine price,
    init gamma nb (<["S0" := 1]> p) T0 = Ok unit_engine /\
    init gamma nb (<["S0" := s]> p) T0 = Ok engine /\
    value_of (rHeston_Call q unit_engine k upLim) = Ok price /\
    value_of (rHeston_Call q engine k upLim) = Ok (s * price).
Proof.
  intros Hnb HT Hp Ha _ Hs.
  destruct (init_ok gamma nb (<["S0" := 1]> p) T0 Hnb HT) as (e1 & Hinit1 & B1);
    [now apply complete_insert | now rewrite param_insert_ne |].
  destruct (init_ok gamma nb (<["S0" := s]> p) T0 Hnb HT) as (e2 & Hinit2 & B2);
    [now apply complete_insert | now rewrite param_insert_ne |].
  destruct (built_params _ _ _ _ _ B1) as (Hk1 & Ht1 & Hv1 & HS1 & Hn1 & Hr1).
  destruct (built_params _ _ _ _ _ B2) as (Hk2 & Ht2 & Hv2 & HS2 & Hn2 & Hr2).
  pose proof (built_param_alpha _ _ _ _ _ B1) as Hal1.
  pose proof (built_param_alpha _ _ _ _ _ B2) as Hal2.
  rewrite param_insert_ne in Hk1, Ht1, Hv1, Hn1, Hr1, Hal1,
                             Hk2, Ht2, Hv2, Hn2, Hr2, Hal2 by done.
  rewrite param_insert in HS1, HS2.
  set (func := fun (u : R) (self : roughHeston) =>
    let! r := rHeston_char_function self (RtoC u - RtoC 0.5 * Ci)%C in
    Ok (Re (Cexp (- Ci * RtoC u * RtoC k) * r.1)%C / (u ^ 2 + 0.25), r.2)).
  destruct (quad_loop_rel
              (fun s1 s2 => same_but_h_hat e1 s1 /\ same_but_h_hat e2 s2)
              q func func 0 (Finite 5)) with
    (fuel := quad_evals q) (seen := @nil (R * R)) (s1 := e1) (s2 := e2)
    as (res & s1' & s2' & Hq1 & Hq2 & _).
  { intros u s1 s2 [Hs1 Hs2]. unfold func.
    destruct (rHeston_char_function_spot_free gamma nb _ _ T0 e1 e2 s1 s2
                (RtoC u - RtoC 0.5 * Ci)%C Hnb B1 B2) as (v & h1 & h2 & -> & ->);
      try assumption; try congruence.
    cbn [bind fst snd]. eexists. eexists. eexists.
    split; [reflexivity|]. split; [reflexivity|].
    split; right; eexists; reflexivity. }
  { split; now left. }
  exists e1, e2. eexists. split; [exact Hinit1|]. split; [exact Hinit2|].
  change (rHeston_Call q e1 k upLim) with
    (let! integ := quad_loop q func 0 (Finite 5) (quad_evals q) [] e1 in
     Ok (S0 e1 - sqrt (S0 e1 * (S0 e1 * exp k)) * integ.1.1 / PI, integ.2)).
  change (rHeston_Call q e2 k upLim) with
    (let! integ := quad_loop q func 0 (Finite 5) (quad_evals q) [] e2 in
     Ok (S0 e2 - sqrt (S0 e2 * (S0 e2 * exp k)) * integ.1.1 / PI, integ.2)).
  rewrite Hq1, Hq2, HS1, HS2. cbn [bind value_of fst snd].
  split; [reflexivity|]. f_equal.
  replace (s * (s * exp k)) with ((s * s) * (1 * (1 * exp k))) by ring.
  rewrite sqrt_mult, sqrt_square by (pose proof (exp_pos k); nra).
  unfold Rdiv. ring.
Qed.

Lemma rHeston_Call_scales_with_spot_witness :
  exists unit_engine engine price,
    init stirling_gamma 100 (<["S0" := 1]> notebook_params) 1 = Ok unit_engine /\
    init stirling_gamma 100 (<["S0" := 2]> notebook_params) 1 = Ok engine /\
    value_of (rHeston_Call midpoint_rule unit_engine (- 0.1) 5) = Ok price /\
    value_of (rHeston_Call midpoint_rule engine (- 0.1) 5) = Ok (2 * price).
Proof.
  apply (rHeston_Call_scales_with_spot stirling_gamma midpoint_rule 100
           notebook_params 1 (- 0.1) 5 2).
  - lia.
  - lra.
  - exact notebook_params_complete.
  - rewrite notebook_alpha. lra.
  - rewrite notebook_alpha. lra.
  - lra.
Defined.

(** ** Normalisation of the reference characteristic function *)

Lemma Csqrt_real_square (c x : R) :
  0 < c -> Csqrt (RtoC c * RtoC c + RtoC x * RtoC 0)%C = RtoC c.
Proof.
  intros Hc.
  replace (RtoC c * RtoC c + RtoC x * RtoC 0)%C with (mkC (c * c) 0)
    by (apply C_ext; cbn [Re Im Cadd Cmul RtoC]; ring).
  unfold Csqrt, Cnorm2. cbn [Re Im].
  replace (c * c * (c * c) + 0 * 0) with ((c * c) * (c * c)) by ring.
  rewrite sqrt_square by nra.
  destruct (Rlt_dec 0 0) as [H|_]; [lra|].
  replace ((c * c + c * c) / 2) with (c * c) by lra.
  replace ((c * c - c * c) / 2) with 0 by lra.
  rewrite sqrt_square, sqrt_0 by lra. reflexivity.
Qed.

Lemma Clog_1 : Clog (RtoC 1) = RtoC 0.
Proof.
  unfold Clog, Cnorm2, atan2. cbn [Re Im RtoC].
  destruct (Rlt_dec 0 1) as [_|H]; [|lra].
  replace (1 * 1 + 0 * 0) with 1 by ring.
  rewrite sqrt_1, ln_1. unfold Rdiv. rewrite Rmult_0_l, atan_0. reflexivity.
Qed.

(** Where [u (u + i) = 0] and [kappa - i rho nu u] is a positive real,
    every branch-dependent term of the formula drops out. *)
Lemma heston_char_function_degenerate (self : roughHeston) (u : C) (c : R) :
  nu self <> 0 -> 0 < c ->
  (RtoC (kappa self) - RtoC (rho self * nu self) * u * Ci)%C = RtoC c ->
  (Ci * u + u * u)%C = RtoC 0 ->
  heston_char_function self u
  = Ok (Cexp (Ci * u * RtoC (ln (S0 self))))%C.
Proof.
  intros Hnu Hc Hdif Hzero. unfold heston_char_function, py_fdiv.
  destruct (Req_dec_T (nu self ^ 2) 0) as [H0|_].
  { exfalso. apply Hnu. apply (Rsqr_0_uniq (nu self)). unfold Rsqr.
    rewrite <- H0. ring. }
  cbn [bind]. rewrite Hdif, Hzero, (Csqrt_real_square c _ Hc).
  assert (Hg : ((RtoC c - RtoC c) / (RtoC c + RtoC c))%C = RtoC 0).
  { apply C_ext; unfold Cdiv, Cnorm2; cbn [Re Im Csub Cadd RtoC]; field; nra. }
  assert (Hdd : (RtoC c - RtoC c)%C = RtoC 0).
  { apply C_ext; cbn [Re Im Csub RtoC]; ring. }
  assert (Hone : forall X, (RtoC 1 - RtoC 0 * X)%C = RtoC 1).
  { intros X. apply C_ext; cbn [Re Im Csub Cmul RtoC]; ring. }
  assert (Hdiv : ((RtoC 1) / (RtoC 1 - RtoC 0))%C = RtoC 1).
  { apply C_ext; unfold Cdiv, Cnorm2; cbn [Re Im Csub RtoC]; field. }
  rewrite Hg, Hdd, !Hone, Hdiv, Clog_1.
  set (e1 := Cexp (Ci * u * RtoC (ln (S0 self)))%C).
  match goal with |- Ok (e1 * Cexp ?x * Cexp ?y)%C = _ =>
    replace x with (RtoC 0);
    [ replace y with (RtoC 0) |]
  end.
  - rewrite Cexp_0. f_equal. destruct e1 as [er ei].
    apply C_ext; cbn [Re Im Cmul]; ring.
  - apply C_ext; unfold Cdiv, Cnorm2; cbn [Re Im Csub Cmul RtoC]; field;
      exact Hnu.
  - apply C_ext; cbn [Re Im Csub Cmul RtoC]; field; exact Hnu.
Qed.

(** X17. The reference characteristic function is that of the log-price:
    for a positive spot, [nu <> 0], [kappa > 0] and [kappa > rho nu],
    [heston_char_function] returns 1 at [u = 0] and the spot [S0] at
    [u = -i] (the forward [E S_T = S0]). *)
Theorem heston_char_function_normalised (self : roughHeston) :
  nu self <> 0 -> 0 < S0 self -> 0 < kappa self ->
  rho self * nu self < kappa self ->
  heston_char_function self (RtoC 0) = Ok (RtoC 1) /\
  heston_char_function self (- Ci)%C = Ok (RtoC (S0 self)).
Proof.
  intros Hnu HS Hk Hrn. split.
  - rewrite (heston_char_function_degenerate self (RtoC 0) (kappa self) Hnu Hk).
    + f_equal. change (RtoC 1) with (mkC 1 0). rewrite <- Cexp_0. f_equal.
      apply C_ext; cbn [Re Im Cmul Ci RtoC]; ring.
    + apply C_ext; cbn [Re Im Csub Cmul Ci RtoC]; ring.
    + apply C_ext; cbn [Re Im Cadd Cmul Ci RtoC]; ring.
  - rewrite (heston_char_function_degenerate self (- Ci)%C
               (kappa self - rho self * nu self) Hnu ltac:(lra)).
    + f_equal.
      replace (Ci * - Ci * RtoC (ln (S0 self)))%C with (RtoC (ln (S0 self)))
        by (apply C_ext; cbn [Re Im Cmul Copp Ci RtoC]; ring).
      unfold Cexp. cbn [Re Im RtoC].
      rewrite exp_ln, cos_0, sin_0 by exact HS.
      apply C_ext; cbn [Re Im RtoC]; ring.
    + apply C_ext; cbn [Re Im Csub Cmul Copp Ci RtoC]; ring.
    + apply C_ext; cbn [Re Im Cadd Cmul Copp Ci RtoC]; ring.
Qed.

Lemma heston_char_function_normalised_witness :
  exists self,
    init stirling_gamma 100 (<["S0" := 2]> notebook_params) 1 = Ok self /\
    heston_char_function self (- Ci)%C = Ok (RtoC 2).
Proof.
  destruct (init_ok stirling_gamma 100 (<["S0" := 2]> notebook_params) 1)
    as (self & Hinit & B).
  - lia.
  - lra.
  - apply complete_insert, notebook_params_complete.
  - change (param (<["S0" := 2]> notebook_params) "alpha") with 0.6. lra.
  - exists self. split; [exact Hinit|].
    destruct (built_params _ _ _ _ _ B) as (Hk & _ & _ & HS & Hn & Hr).
    change (param (<["S0" := 2]> notebook_params) "kappa") with 0.3 in Hk.
    change (param (<["S0" := 2]> notebook_params) "S0") with 2 in HS.
    change (param (<["S0" := 2]> notebook_params) "nu") with 0.3 in Hn.
    change (param (<["S0" := 2]> notebook_params) "rho") with (- 0.7) in Hr.
    destruct (heston_char_function_normalised self) as [_ H].
    + rewrite Hn. lra.
    + rewrite HS. lra.
    + rewrite Hk. lra.
    + rewrite Hk, Hn, Hr. lra.
    + rewrite H, HS. reflexivity.
Defined.

(** ** Sign of the predictor weights *)

Lemma float_pow_pos (x y : R) : 0 < x -> 0 < float_pow x y.
Proof.
  intros Hx. unfold float_pow. destruct (Rlt_dec 0 x); [|contradiction].
  unfold Rpower. apply exp_pos.
Qed.

Lemma float_pow_increasing (x y alpha : R) :
  0 < alpha -> 0 <= x < y -> float_pow x alpha < float_pow y alpha.
Proof.
  intros Ha [Hx Hxy].
  destruct (Req_dec_T x 0) as [->|Hx0].
  - rewrite float_pow_0_l by lra. apply float_pow_pos. exact Hxy.
  - unfold float_pow.
    destruct (Rlt_dec 0 x); [|lra]. destruct (Rlt_dec 0 y); [|lra].
    apply Rlt_Rpower_l; lra.
Qed.

(** X18. Every predictor weight the scheme uses is positive: for a
    positive horizon, [alpha > 0] and [Gamma(alpha+1) > 0], the entries
    [b_{j,k}] with [0 <= j < k <= n] of the matrix the constructor stores
    are strictly positive. *)
Theorem predictor_weights_positive (gamma : R -> R) (nb : Z)
    (p : gmap string R) (T0 : R) :
  (1 <= nb)%Z -> 0 < T0 -> complete p -> 0 < param p "alpha" ->
  0 < gamma (param p "alpha" + 1) ->
  exists self, init gamma nb p T0 = Ok self /\
    forall j k, (0 <= j < k)%Z -> (k <= nb)%Z ->
      exists w, mat_get (b_ self) j k = Ok w /\ 0 < w.
Proof.
  intros Hnb HT Hp Ha Hg.
  destruct (init_ok gamma nb p T0 Hnb ltac:(lra) Hp ltac:(lra))
    as (self & Hinit & B).
  exists self. split; [exact Hinit|]. intros j k Hj Hk.
  pose proof (built_b _ _ _ _ _ B) as HB.
  rewrite (built_dt _ _ _ _ _ B), (built_param_alpha _ _ _ _ _ B) in HB.
  eexists. split; [apply (mat_is_get _ _ _ _ j k HB); lia|].
  unfold b_weight.
  destruct (Z.leb_spec 0 j); [|lia]. destruct (Z.ltb_spec j k); [|lia].
  cbn [andb].
  apply Rmult_lt_0_compat.
  - apply Rdiv_lt_0_compat; [|exact Hg]. apply float_pow_pos.
    apply Rdiv_lt_0_compat; [exact HT | apply IZR_lt; lia].
  - apply Rlt_0_minus. apply float_pow_increasing; [exact Ha|].
    split; [apply IZR_le; lia | apply IZR_lt; lia].
Qed.

Lemma predictor_weights_positive_witness :
  exists self w, init stirling_gamma 100 notebook_params 1 = Ok self /\
    mat_get (b_ self) 3 7 = Ok w /\ 0 < w.
Proof.
  destruct (predictor_weights_positive stirling_gamma 100 notebook_params 1)
    as (self & Hinit & Hb).
  - lia.
  - lra.
  - exact notebook_params_complete.
  - rewrite notebook_alpha. lra.
  - rewrite notebook_alpha. apply stirling_gamma_pos. lra.
  - destruct (Hb 3%Z 7%Z) as (w & H1 & H2); [lia | lia |].
    exists self, w. repeat split; assumption.
Defined.
